(** * sinsacord: node orchestration and playback control

    A shallow embedding of [src/structures/Manager.ts] and
    [src/structures/Player.ts].  Classes become records, methods become
    computations in a small state/exception/trace monad, and every call
    that leaves the process ([node.send], [manager.options.send],
    [manager.emit]) is recorded, in program order, in the trace.

    JavaScript numbers that the code only stores, clamps or compares are
    idealised as rationals ([Q]); [NaN] is kept as a separate value where
    the code tests for it.  The load of a Node, which the code computes
    by division and multiplication, is computed in binary64 ([float]). *)

From stdpp Require Import base list strings.
From Stdlib Require Import Ascii ZArith QArith Lia Lqa Sorted Floats.

Local Open Scope string_scope.
Local Open Scope list_scope.

(** ** JavaScript values *)

(** A [number] argument as [Number(x)] sees it. *)
Inductive number :=
| NaN
| Num (q : Q).

Definition Math_min (a b : Q) : Q := if Qle_bool a b then a else b.
Definition Math_max (a b : Q) : Q := if Qle_bool a b then b else a.

(** Truthiness of a [string | null | undefined] value: only a non-empty
    string is truthy. *)
Definition truthy (s : option string) : bool :=
  match s with
  | Some s => negb (String.eqb s "")
  | None => false
  end.

(** [/^\d+$/.test(s)]: one or more ASCII digits and nothing else. *)
Definition is_digit (c : ascii) : bool :=
  ((48 <=? nat_of_ascii c) && (nat_of_ascii c <=? 57))%nat.

Fixpoint all_digits (s : string) : bool :=
  match s with
  | EmptyString => true
  | String c r => is_digit c && all_digits r
  end.

Definition digits_only (s : string) : bool :=
  negb (String.eqb s "") && all_digits s.

(** A plain object whose property values are numbers: the properties in
    insertion order. *)
Definition JsObject := list (string * Q).

Definition Object_keys (o : JsObject) : list string := o.*1.

Fixpoint prop (k : string) (o : JsObject) : option Q :=
  match o with
  | [] => None
  | (k', v) :: r => if String.eqb k' k then Some v else prop k r
  end.

(** [Array.prototype.sort()] with the default comparison, on strings. *)
Fixpoint insert_key (k : string) (l : list string) : list string :=
  match l with
  | [] => [k]
  | k' :: r => if String.leb k k' then k :: k' :: r else k' :: insert_key k r
  end.

Definition sort_keys (l : list string) : list string :=
  foldr insert_key [] l.

(** An array of numbers, holes included ([None] is a hole). *)
Definition JsArray := list (option Q).

(** The array index a numeric property key denotes, if it is one: a
    non-negative integer below 2^32 - 1. *)
Definition as_index (k : Q) : option nat :=
  let r := Qred k in
  if (Pos.eqb (Qden r) 1 && (0 <=? Qnum r)%Z && (Qnum r <? 2 ^ 32 - 1)%Z)%bool
  then Some (Z.to_nat (Qnum r))
  else None.

(** [a[k] = v].  Inside the array the slot is overwritten; beyond its end
    the array grows, leaving holes; a key that is no array index becomes
    an ordinary property, which is not an element and is not kept here. *)
Definition array_set (a : JsArray) (k : Q) (v : Q) : JsArray :=
  match as_index k with
  | Some i =>
      if (i <? length a)%nat then <[i := Some v]> a
      else a ++ replicate (i - length a) None ++ [Some v]
  | None => a
  end.

(** [new Array(n).fill(v)] *)
Definition Array_fill (n : nat) (v : Q) : JsArray := replicate n (Some v).

(** ** Collection (an insertion-ordered map with string keys) *)

Module Collection.
Section Ops.
Context {V : Type}.

Definition t := list (string * V).

Fixpoint get (k : string) (c : list (string * V)) : option V :=
  match c with
  | [] => None
  | (k', v) :: r => if String.eqb k' k then Some v else get k r
  end.

Definition has (k : string) (c : list (string * V)) : bool :=
  match get k c with Some _ => true | None => false end.

(** An existing key keeps its place; a new key goes last. *)
Fixpoint set (k : string) (v : V) (c : list (string * V)) : list (string * V) :=
  match c with
  | [] => [(k, v)]
  | (k', v') :: r =>
      if String.eqb k' k then (k, v) :: r else (k', v') :: set k v r
  end.

Fixpoint delete (k : string) (c : list (string * V)) : list (string * V) :=
  match c with
  | [] => []
  | (k', v') :: r =>
      if String.eqb k' k then r else (k', v') :: delete k r
  end.

(** [first()] gives the first value; its key comes along, since the
    key is what stands for a reference to the value. *)
Definition first (c : list (string * V)) : option (string * V) := head c.

Definition filter (f : V → bool) (c : list (string * V)) : list (string * V) :=
  List.filter (λ kv, f kv.2) c.

(** [sort(compareFunction)]: [Array.prototype.sort] on the entries,
    which is stable.  [le0 a b] is [compareFunction(a, b) <= 0]. *)
Fixpoint insert (le0 : V → V → bool) (x : string * V)
    (l : list (string * V)) : list (string * V) :=
  match l with
  | [] => [x]
  | y :: r => if le0 x.2 y.2 then x :: y :: r else y :: insert le0 x r
  end.

Definition sort (le0 : V → V → bool) (c : list (string * V)) : list (string * V) :=
  foldr (insert le0) [] c.
End Ops.
Arguments t : clear implicits.
End Collection.

(** ** Tracks and the queue *)

Module Track.
Record t := mk {
  track : string;
  title : string;
  author : string;
  duration : Q;
}.
End Track.

Module UnresolvedTrack.
Record t := mk {
  title : string;
  author : option string;
  duration : option Q;
}.
End UnresolvedTrack.

(** What a queue slot holds: [Track | UnresolvedTrack]. *)
Inductive Entry :=
| Resolved (t : Track.t)
| Unresolved (u : UnresolvedTrack.t).

Module Queue.
(** The array part of the queue is [items]. *)
Record t := mk {
  items : list Entry;
  current : option Entry;
  previous : option Entry;
}.

Definition empty : t := {| items := []; current := None; previous := None |}.

Definition length (q : t) : nat := List.length (items q).

(** Modelled from the spec: [Queue.totalSize], whose source file is not
    at hand: the length of the pending sequence plus one if [current]
    is set. *)
Definition totalSize (q : t) : nat :=
  (length q + match current q with Some _ => 1 | None => 0 end)%nat.

(** [queue.splice(0, n)] *)
Definition splice0 (n : nat) (q : t) : t :=
  {| items := drop n (items q); current := current q; previous := previous q |}.
End Queue.

(** ** Nodes *)

Module Node.
Record CpuStats := mkCpu {
  systemLoad : float;
  cores : float;
}.

Record t := mk {
  identifier : string;
  connected : bool;
  calls : Z;
  cpu : option CpuStats;      (* [stats.cpu] *)
}.
End Node.

(** ** Voice credentials *)

(** A "voice server update": [{ token, guild_id, endpoint }]. *)
Module VoiceServer.
Record t := mk {
  token : string;
  guild_id : string;
  endpoint : string;
}.
End VoiceServer.

(** A "voice state update": [{ guild_id, user_id, session_id, channel_id }]. *)
Module VoiceStateUpdate.
Record t := mk {
  guild_id : string;
  user_id : string;
  session_id : string;
  channel_id : option string;
}.
End VoiceStateUpdate.

(** The Session's credential record; a field is [Some] exactly when the
    key is present on the object. *)
Module VoiceState.
Record t := mk {
  op : option string;
  guildId : option string;
  event : option VoiceServer.t;
  sessionId : option string;
}.

(** [Object.assign({})] *)
Definition empty : t :=
  {| op := None; guildId := None; event := None; sessionId := None |}.
End VoiceState.

(** ** Operations, events and the trace *)

Module PlayOptions.
Record t := mk {
  startTime : option Q;
  endTime : option Q;
  noReplace : option bool;
}.

Definition none : t :=
  {| startTime := None; endTime := None; noReplace := None |}.
End PlayOptions.

(** One slot of the [bands] array of an [equalizer] operation. *)
Record EqualizerBand := mkBand { band : nat; gain : Q }.

(** What [node.send] is given. *)
Inductive Op :=
| OpVolume (guildId : string) (volume : Q)
| OpEqualizer (guildId : string) (bands : list (option EqualizerBand))
| OpPlay (guildId : string) (track : string) (options : PlayOptions.t)
| OpStop (guildId : string)
| OpPause (guildId : string) (pause : bool)
| OpVoiceUpdate (voiceState : VoiceState.t).

(** The gateway payload [{ op: 4, d: { ... } }] of [manager.options.send]. *)
Record Payload := mkPayload {
  d_guild_id : string;
  d_channel_id : option string;
  d_self_mute : bool;
  d_self_deaf : bool;
}.

Inductive ManagerEvent :=
| playerCreate (guild : string)
| playerMove (guild : string) (initChannel : option string) (newChannel : string)
| playerDisconnect (guild : string) (oldChannel : option string)
| trackError (guild : string) (track : UnresolvedTrack.t).

(** A call that leaves the process.  [NodeSend n g o] is [node.send(o)]
    on the Node registered as [n], issued for the Session of guild [g]. *)
Inductive Effect :=
| NodeSend (node : string) (session : string) (op : Op)
| GatewaySend (id : string) (payload : Payload)
| Emit (event : ManagerEvent).

(** ** The monad: state, exceptions, trace *)

Inductive Exn :=
| Error (message : string)
| TypeError (message : string)
| RangeError (message : string).

Inductive Res (A : Type) :=
| Ok (a : A)
| Throw (e : Exn).
Arguments Ok {A} a.
Arguments Throw {A} e.

(** A computation over a state [S]: its result, the state it leaves (also
    when it throws: mutations made before a [throw] stay), and the calls
    it made. *)
Definition M (S A : Type) : Type := S → Res A * S * list Effect.

Definition ret {S A} (a : A) : M S A := λ s, (Ok a, s, []).

Definition bind {S A B} (m : M S A) (k : A → M S B) : M S B := λ s,
  match m s with
  | (Ok a, s1, t1) => let '(r, s2, t2) := k a s1 in (r, s2, t1 ++ t2)
  | (Throw e, s1, t1) => (Throw e, s1, t1)
  end.

#[global] Instance M_ret S : MRet (M S) := λ A, ret.
#[global] Instance M_bind S : MBind (M S) := λ A B k m, bind m k.

Definition throw {S A} (e : Exn) : M S A := λ s, (Throw e, s, []).
Definition get_state {S} : M S S := λ s, (Ok s, s, []).
Definition modify {S} (f : S → S) : M S unit := λ s, (Ok tt, f s, []).
Definition tell {S} (e : Effect) : M S unit := λ s, (Ok tt, s, [e]).
Definition when {S} (b : bool) (m : M S unit) : M S unit :=
  if b then m else ret tt.

(** Modelled from the spec: [Node.send], whose source file is not at
    hand: the operation is written to the Node's persistent connection,
    fire-and-forget.  The trace keeps the call. *)
Definition Node_send {S} (node session : string) (o : Op) : M S unit :=
  tell (NodeSend node session o).

(** ** Player (Player.ts) *)

Module PlayerOptions.
Record t := mk {
  guild : string;
  textChannel : option string;
  voiceChannel : option string;
  node : option string;
  volume : option number;
  selfMute : option bool;
  selfDeafen : option bool;
}.
End PlayerOptions.

Inductive State :=
| DISCONNECTED
| CONNECTING
| CONNECTED
| DISCONNECTING
| DESTROYING.

(** The first argument of [play]: a track, or a [PlayOptions] object. *)
Inductive PlayArg :=
| ArgTrack (e : Entry)
| ArgOptions (o : PlayOptions.t).

Module Player.
(** [node] is the key under which the assigned Node is registered;
    [volume] is [None] until [setVolume] has run. *)
Record t := mk {
  options : PlayerOptions.t;
  queue : Queue.t;
  trackRepeat : bool;
  queueRepeat : bool;
  position : Q;
  playing : bool;
  paused : bool;
  volume : option Q;
  node : string;
  guild : string;
  voiceChannel : option string;
  textChannel : option string;
  state : State;
  bands : JsArray;
  voiceState : VoiceState.t;
}.

(** Field assignments. *)
Definition set_queue (x : Queue.t) (p : t) : t :=
  mk (options p) x (trackRepeat p) (queueRepeat p) (position p) (playing p)
     (paused p) (volume p) (node p) (guild p) (voiceChannel p) (textChannel p)
     (state p) (bands p) (voiceState p).
Definition set_repeat (tr qr : bool) (p : t) : t :=
  mk (options p) (queue p) tr qr (position p) (playing p)
     (paused p) (volume p) (node p) (guild p) (voiceChannel p) (textChannel p)
     (state p) (bands p) (voiceState p).
Definition set_playing_paused (pl pa : bool) (p : t) : t :=
  mk (options p) (queue p) (trackRepeat p) (queueRepeat p) (position p) pl
     pa (volume p) (node p) (guild p) (voiceChannel p) (textChannel p)
     (state p) (bands p) (voiceState p).
Definition set_volume (x : option Q) (p : t) : t :=
  mk (options p) (queue p) (trackRepeat p) (queueRepeat p) (position p) (playing p)
     (paused p) x (node p) (guild p) (voiceChannel p) (textChannel p)
     (state p) (bands p) (voiceState p).
Definition set_voiceChannel (x : option string) (p : t) : t :=
  mk (options p) (queue p) (trackRepeat p) (queueRepeat p) (position p) (playing p)
     (paused p) (volume p) (node p) (guild p) x (textChannel p)
     (state p) (bands p) (voiceState p).
Definition set_state (x : State) (p : t) : t :=
  mk (options p) (queue p) (trackRepeat p) (queueRepeat p) (position p) (playing p)
     (paused p) (volume p) (node p) (guild p) (voiceChannel p) (textChannel p)
     x (bands p) (voiceState p).
Definition set_bands (x : JsArray) (p : t) : t :=
  mk (options p) (queue p) (trackRepeat p) (queueRepeat p) (position p) (playing p)
     (paused p) (volume p) (node p) (guild p) (voiceChannel p) (textChannel p)
     (state p) x (voiceState p).
Definition set_voiceState (x : VoiceState.t) (p : t) : t :=
  mk (options p) (queue p) (trackRepeat p) (queueRepeat p) (position p) (playing p)
     (paused p) (volume p) (node p) (guild p) (voiceChannel p) (textChannel p)
     (state p) (bands p) x.

(** [check(options)], Player.ts:6-44.  The [typeof] tests hold by the
    types of the fields.  Messages are kept without their inner
    quotation marks. *)
Definition check (o : PlayerOptions.t) : Res unit :=
  if negb (digits_only (PlayerOptions.guild o)) then
    Throw (TypeError "Player option guild must be present and be a non-empty string.")
  else if truthy (PlayerOptions.textChannel o)
          && negb (digits_only (default "" (PlayerOptions.textChannel o))) then
    Throw (TypeError "Player option textChannel must be a non-empty string.")
  else if truthy (PlayerOptions.voiceChannel o)
          && negb (digits_only (default "" (PlayerOptions.voiceChannel o))) then
    Throw (TypeError "Player option voiceChannel must be a non-empty string.")
  else Ok tt.

(** [JSON.stringify(Object.keys(band).sort()) === '["band","gain"]'];
    [JSON.stringify] is one-to-one on arrays of strings, so this
    compares the sorted keys. *)
Definition has_band_and_gain (b : JsObject) : bool :=
  bool_decide (sort_keys (Object_keys b) = ["band"; "gain"]).

(** [this.bands[band] = gain] for one [{ band, gain }]. *)
Definition assign_band (a : JsArray) (b : JsObject) : JsArray :=
  match prop "band" b, prop "gain" b with
  | Some k, Some g => array_set a k g
  | _, _ => a
  end.

(** [this.bands.map((gain, band) => ({ band, gain }))]; holes stay. *)
Definition equalizer_bands (a : JsArray) : list (option EqualizerBand) :=
  imap (λ i g, mkBand i <$> g) a.

(** [setEQ(...bands)], Player.ts:136-149; [bs] is the band list after
    line 137 has unwrapped a single array argument. *)
Definition setEQ (bs : list JsObject) : M t unit :=
  if (length bs =? 0)%nat || negb (forallb has_band_and_gain bs) then
    throw (RangeError
      "Bands must be a non-empty object array containing 'band' and 'gain' properties.")
  else
    modify (λ p, set_bands (foldl assign_band (bands p) bs) p);;
    p ← get_state;
    Node_send (node p) (guild p)
      (OpEqualizer (guild p) (equalizer_bands (bands p))).

(** Player.ts:113-117:
    [new Array(4).fill(null).map((_, i) => ({ band: i, gain: 0.15 }))] *)
Definition constructor_bands : list JsObject :=
  imap (λ i (_ : unit), [("band", inject_Z (Z.of_nat i)); ("gain", 15 # 100)])
    (replicate 4 tt).

(** [clearEQ()], Player.ts:151-161 *)
Definition clearEQ : M t unit :=
  modify (set_bands (Array_fill 15 0));;
  p ← get_state;
  Node_send (node p) (guild p)
    (OpEqualizer (guild p) (equalizer_bands (bands p))).

(** [connect()], Player.ts:163-179 *)
Definition connect : M t unit :=
  p ← get_state;
  if negb (truthy (voiceChannel p)) then
    throw (RangeError "Voice channel ID not set.")
  else
    modify (set_state CONNECTING);;
    tell (GatewaySend (guild p)
      {| d_guild_id := guild p;
         d_channel_id := voiceChannel p;
         d_self_mute := default false (PlayerOptions.selfMute (options p));
         d_self_deaf := default false (PlayerOptions.selfDeafen (options p)) |});;
    modify (set_state CONNECTED).

(** [setVolume(volume)], Player.ts:298-308 *)
Definition setVolume (v : number) : M t unit :=
  match v with
  | NaN => throw (TypeError "Volume must be a number.")
  | Num q =>
      let v := Math_max (Math_min q 1000) 0 in
      modify (set_volume (Some v));;
      p ← get_state;
      Node_send (node p) (guild p) (OpVolume (guild p) v)
  end.

(** [setTrackRepeat(repeat)], Player.ts:313-324 *)
Definition setTrackRepeat (repeat : bool) : M t unit :=
  if repeat then modify (set_repeat true false)
  else modify (set_repeat false false).

(** [setQueueRepeat(repeat)], Player.ts:329-340 *)
Definition setQueueRepeat (repeat : bool) : M t unit :=
  if repeat then modify (set_repeat false true)
  else modify (set_repeat false false).

(** [stop(amount?)], Player.ts:342-352; [None] is a call without an
    argument, and a given amount is taken to be an integer. *)
Definition stop (amount : option Z) : M t unit :=
  p ← get_state;
  match amount with
  | Some n =>
      if (1 <? n)%Z then
        if (Z.of_nat (Queue.length (queue p)) <? n)%Z then
          throw (RangeError "Cannot skip more than the queue length.")
        else modify (λ p, set_queue (Queue.splice0 (Z.to_nat (n - 1)) (queue p)) p)
      else ret tt
  | None => ret tt
  end;;
  Node_send (node p) (guild p) (OpStop (guild p)).

(** [pause(pause)], Player.ts:357-369 *)
Definition pause (pause : bool) : M t unit :=
  p ← get_state;
  if Bool.eqb (paused p) pause || (Queue.totalSize (queue p) =? 0)%nat then ret tt
  else
    modify (set_playing_paused (negb pause) pause);;
    Node_send (node p) (guild p) (OpPause (guild p) pause).

Section Play.
(** [TrackUtils.getClosestTrack], taken as given: [None] is a
    rejected promise. *)
Variable getClosestTrack : UnresolvedTrack.t → option Track.t.

(** [finalOptions], Player.ts:264-270 *)
Definition finalOptions (optionsOrTrack : option PlayArg)
    (playOptions : option PlayOptions.t) : PlayOptions.t :=
  match playOptions with
  | Some o => o
  | None =>
      match optionsOrTrack with
      | Some (ArgOptions
                ({| PlayOptions.startTime := Some _;
                    PlayOptions.endTime := Some _;
                    PlayOptions.noReplace := Some _ |} as o)) => o
      | _ => PlayOptions.none
      end
  end.

(** [play(optionsOrTrack?, playOptions?)], Player.ts:254-293.  The
    call made when resolution fails and the queue is not empty is the
    recursive one; [fuel] bounds how many times it may happen, and a
    result of [None] says the bound was reached. *)
Fixpoint play (fuel : nat) (optionsOrTrack : option PlayArg)
    (playOptions : option PlayOptions.t) : M t (option unit) :=
  match fuel with
  | O => ret None
  | S fuel' =>
      match optionsOrTrack with
      | Some (ArgTrack e) =>
          modify (λ p,
            let q := queue p in
            set_queue
              {| Queue.items := Queue.items q;
                 Queue.current := Some e;
                 Queue.previous :=
                   match Queue.current q with
                   | Some c => Some c
                   | None => Queue.previous q
                   end |} p)
      | _ => ret tt
      end;;
      p ← get_state;
      match Queue.current (queue p) with
      | None => throw (RangeError "No current track.")
      | Some (Resolved tr) =>
          Node_send (node p) (guild p)
            (OpPlay (guild p) (Track.track tr)
               (finalOptions optionsOrTrack playOptions));;
          ret (Some tt)
      | Some (Unresolved u) =>
          match getClosestTrack u with
          | Some tr =>
              modify (λ p,
                let q := queue p in
                set_queue
                  {| Queue.items := Queue.items q;
                     Queue.current := Some (Resolved tr);
                     Queue.previous := Queue.previous q |} p);;
              Node_send (node p) (guild p)
                (OpPlay (guild p) (Track.track tr)
                   (finalOptions optionsOrTrack playOptions));;
              ret (Some tt)
          | None =>
              tell (Emit (trackError (guild p) u));;
              match head (Queue.items (queue p)) with
              | Some e => play fuel' (Some (ArgTrack e)) None
              | None => ret (Some tt)
              end
          end
      end
  end.
End Play.

Definition set_textChannel (x : option string) (p : t) : t :=
  mk (options p) (queue p) (trackRepeat p) (queueRepeat p) (position p) (playing p)
     (paused p) (volume p) (node p) (guild p) (voiceChannel p) x
     (state p) (bands p) (voiceState p).

(** [disconnect()], Player.ts:181-199; [None] is [null]. *)
Definition disconnect : M t unit :=
  p ← get_state;
  match voiceChannel p with
  | None => ret tt
  | Some _ =>
      modify (set_state DISCONNECTING);;
      pause true;;
      tell (GatewaySend (guild p)
        {| d_guild_id := guild p;
           d_channel_id := None;
           d_self_mute := false;
           d_self_deaf := false |});;
      modify (set_voiceChannel None);;
      modify (set_state DISCONNECTED)
  end.

(** [setVoiceChannel(channel)], Player.ts:218-225 *)
Definition setVoiceChannel (channel : string) : M t unit :=
  modify (set_voiceChannel (Some channel));;
  connect.

(** [setTextChannel(channel)], Player.ts:230-236 *)
Definition setTextChannel (channel : string) : M t unit :=
  modify (set_textChannel (Some channel)).
End Player.

(** ** Manager (Manager.ts) *)

(** The object a voice packet carries in [d], or the bare update. *)
Inductive Update :=
| UServer (s : VoiceServer.t)          (* has [token] *)
| UState (s : VoiceStateUpdate.t)      (* has [session_id], no [token] *)
| UOther.                              (* has neither *)

(** The argument of [updateVoiceState]: a packet [{ t?, d }] or a bare
    update. *)
Inductive VoiceData :=
| Packet (t : option string) (d : option Update)
| Bare (u : Update).

Module Manager.
Record Options := mkOptions {
  clientId : option string;
}.

Record t := mk {
  players : Collection.t Player.t;
  nodes : Collection.t Node.t;
  options : Options;
}.

Definition set_players (x : Collection.t Player.t) (m : t) : t :=
  mk x (nodes m) (options m).

Definition REQUIRED_KEYS : list string := ["event"; "guildId"; "op"; "sessionId"].

(** [k in voiceState] *)
Definition key_in (k : string) (vs : VoiceState.t) : bool :=
  if String.eqb k "op" then bool_decide (is_Some (VoiceState.op vs))
  else if String.eqb k "guildId" then bool_decide (is_Some (VoiceState.guildId vs))
  else if String.eqb k "event" then bool_decide (is_Some (VoiceState.event vs))
  else if String.eqb k "sessionId" then bool_decide (is_Some (VoiceState.sessionId vs))
  else false.

(** [REQUIRED_KEYS.every((k) => k in player.voiceState)] *)
Definition has_required_keys (vs : VoiceState.t) : bool :=
  forallb (λ k, key_in k vs) REQUIRED_KEYS.
Arguments has_required_keys : simpl never.

(** [leastUsedNode], Manager.ts:214-217 *)
Definition leastUsedNode (m : t) : Collection.t Node.t :=
  Collection.sort (λ a b, (Node.calls b - Node.calls a <=? 0)%Z)
    (Collection.filter Node.connected (nodes m)).

(** [(cpu.systemLoad / cpu.cores) * 100], or [0] without [stats.cpu],
    in binary64 arithmetic as the code computes it. *)
Definition load (n : Node.t) : float :=
  match Node.cpu n with
  | Some c => (Node.systemLoad c / Node.cores c * 100)%float
  | None => 0%float
  end.

(** [aload - bload <= 0] as [sort] reads the comparison: a difference
    that is no number counts as [0]. *)
Definition load_le0 (a b : Node.t) : bool :=
  negb (PrimFloat.ltb 0 (load a - load b)).

(** [leastLoadNodes], Manager.ts:219-231 *)
Definition leastLoadNodes (m : t) : Collection.t Node.t :=
  Collection.sort load_le0 (Collection.filter Node.connected (nodes m)).

(** The Node [search] sends its request to, Manager.ts:312-313. *)
Definition search_node (m : t) : Res (string * Node.t) :=
  match Collection.first (leastUsedNode m) with
  | Some n => Ok n
  | None => Throw (Error "No available nodes")
  end.

(** Run a method of the Player registered under [g].  The registry
    holds the object itself, so what the method changes is seen there. *)
Definition on_player {A} (g : string) (p : Player.t) (pm : M Player.t A)
    : M t (A * Player.t) := λ m,
  let '(r, p', tr) := pm p in
  (match r with Ok a => Ok (a, p') | Throw e => Throw e end,
   set_players (Collection.set g p' (players m)) m, tr).

(** Player.ts:105-106: the Node named in the options if it is
    registered, else the first of [leastLoadNodes]. *)
Definition assign_node (o : PlayerOptions.t) (m : t) : option (string * Node.t) :=
  let node :=
    k ← PlayerOptions.node o;
    n ← Collection.get k (nodes m);
    Some (k, n) in
  match node with
  | Some kn => Some kn
  | None => Collection.first (leastLoadNodes m)
  end.

(** The new object once the field initialisers and Player.ts:99-106
    have run. *)
Definition fields (o : PlayerOptions.t) (node : string) : Player.t :=
  {| Player.options := o;
     Player.queue := Queue.empty;
     Player.trackRepeat := false;
     Player.queueRepeat := false;
     Player.position := 0;
     Player.playing := false;
     Player.paused := false;
     Player.volume := None;
     Player.node := node;
     Player.guild := PlayerOptions.guild o;
     Player.voiceChannel :=
       if truthy (PlayerOptions.voiceChannel o)
       then PlayerOptions.voiceChannel o else None;
     Player.textChannel :=
       if truthy (PlayerOptions.textChannel o)
       then PlayerOptions.textChannel o else None;
     Player.state := DISCONNECTED;
     Player.bands := Array_fill 15 0;
     Player.voiceState :=
       {| VoiceState.op := Some "voiceUpdate";
          VoiceState.guildId := Some (PlayerOptions.guild o);
          VoiceState.event := None;
          VoiceState.sessionId := None |} |}.

(** [new Player(options)], Player.ts:90-119, with the Manager set. *)
Definition new_Player (o : PlayerOptions.t) : M t Player.t :=
  m ← get_state;
  let g := PlayerOptions.guild o in
  match Collection.get g (players m) with
  | Some existing => ret existing
  | None =>
      match Player.check o with
      | Throw e => throw e
      | Ok _ =>
          match assign_node o m with
          | None => throw (RangeError "No available nodes.")
          | Some (node, _) =>
              let this := fields o node in
              modify (set_players (Collection.set g this (players m)));;
              tell (Emit (playerCreate g));;
              '(_, this) ← on_player g this
                (Player.setVolume (default (Num 100) (PlayerOptions.volume o)));
              '(_, this) ← on_player g this (Player.setEQ Player.constructor_bands);
              ret this
          end
      end
  end.

(** [create(options)], Manager.ts:387-393; [has] and [get] agree on
    whether the guild is registered. *)
Definition create (o : PlayerOptions.t) : M t Player.t :=
  m ← get_state;
  match Collection.get (PlayerOptions.guild o) (players m) with
  | Some existing => ret existing
  | None => new_Player o
  end.

(** [get(guild)], Manager.ts:397-399 *)
Definition get (guild : string) (m : t) : option Player.t :=
  Collection.get guild (players m).

(** [destroy(guild)], Manager.ts:403-405 *)
Definition destroy (guild : string) : M t unit :=
  modify (λ m, set_players (Collection.delete guild (players m)) m).

(** Manager.ts:429-432: the update that [data] delivers, [None] when
    the function returns at once. *)
Definition update_of (data : VoiceData) : option Update :=
  let skipped :=
    match data with
    | Packet (Some t) _ =>
        negb (existsb (String.eqb t) ["VOICE_STATE_UPDATE"; "VOICE_SERVER_UPDATE"])
    | _ => false
    end in
  if skipped then None else
  let update := match data with Packet _ d => d | Bare u => Some u end in
  match update with
  | None | Some UOther => None
  | Some u => Some u
  end.

(** Manager.ts:442-454, run on the Player found: the two branches on
    [update.channel_id]. *)
Definition apply_voice_state (s : VoiceStateUpdate.t) : M Player.t unit :=
  let g := VoiceStateUpdate.guild_id s in
  if truthy (VoiceStateUpdate.channel_id s) then
    p ← get_state;
    when (negb (bool_decide
            (Player.voiceChannel p = VoiceStateUpdate.channel_id s)))
      (tell (Emit (playerMove g (Player.voiceChannel p)
               (default "" (VoiceStateUpdate.channel_id s)))));;
    modify (λ p,
      let vs := Player.voiceState p in
      Player.set_voiceState
        {| VoiceState.op := VoiceState.op vs;
           VoiceState.guildId := VoiceState.guildId vs;
           VoiceState.event := VoiceState.event vs;
           VoiceState.sessionId := Some (VoiceStateUpdate.session_id s) |} p);;
    modify (Player.set_voiceChannel (VoiceStateUpdate.channel_id s))
  else
    p ← get_state;
    tell (Emit (playerDisconnect g (Player.voiceChannel p)));;
    modify (Player.set_voiceChannel None);;
    modify (Player.set_voiceState VoiceState.empty);;
    Player.pause true.

(** [updateVoiceState(data)], Manager.ts:428-460 *)
Definition updateVoiceState (data : VoiceData) : M t unit :=
  match update_of data with
  | None | Some UOther => ret tt
  | Some (UServer s) =>
      m ← get_state;
      let g := VoiceServer.guild_id s in
      match Collection.get g (players m) with
      | None => ret tt
      | Some player =>
          on_player g player
            (modify (λ p,
               let vs := Player.voiceState p in
               Player.set_voiceState
                 {| VoiceState.op := VoiceState.op vs;
                    VoiceState.guildId := VoiceState.guildId vs;
                    VoiceState.event := Some s;
                    VoiceState.sessionId := VoiceState.sessionId vs |} p));;
          ret tt
      end
  | Some (UState s) =>
      m ← get_state;
      let g := VoiceStateUpdate.guild_id s in
      match Collection.get g (players m) with
      | None => ret tt
      | Some player =>
          if negb (bool_decide (Some (VoiceStateUpdate.user_id s) = clientId (options m)))
          then ret tt
          else
            '(_, player) ← on_player g player (apply_voice_state s);
            when (has_required_keys (Player.voiceState player))
              (Node_send (Player.node player) g
                 (OpVoiceUpdate (Player.voiceState player)))
      end
  end.

(** Deliver a sequence of gateway events, one after the other. *)
Definition updateVoiceStates (ds : list VoiceData) : M t unit :=
  foldr (λ d k, updateVoiceState d;; k) (ret tt) ds.
End Manager.

(** ** Destroying a Session (Player.ts) *)

(** The calls [destroy] makes: those of the methods it runs, then its
    own [node.send({ op: "destroy", guildId })] and
    [manager.emit("playerDestroy", this)]. *)
Inductive Call :=
| Earlier (e : Effect)
| NodeSendDestroy (node : string) (session : string) (guildId : string)
| EmitPlayerDestroy (guild : string).

(** [destroy(disconnect = true)], Player.ts:200-213, on the object
    [this].  The registry loses whatever it holds under [this.guild]. *)
Definition Player_destroy (disconnect : bool) (this : Player.t) (m : Manager.t)
    : Res unit * Player.t * Manager.t * list Call :=
  let this := Player.set_state DESTROYING this in
  let '(r, this, tr) :=
    if disconnect then Player.disconnect this else (Ok tt, this, []) in
  match r with
  | Throw e => (Throw e, this, m, Earlier <$> tr)
  | Ok _ =>
      (Ok tt, this,
       Manager.set_players
         (Collection.delete (Player.guild this) (Manager.players m)) m,
       (Earlier <$> tr)
       ++ [NodeSendDestroy (Player.node this) (Player.guild this) (Player.guild this);
           EmitPlayerDestroy (Player.guild this)])
  end.

(** ** Vocabulary of the statements *)

(** The parts of what a computation returns. *)
Definition result {S A} (x : Res A * S * list Effect) : Res A := x.1.1.
Definition final {S A} (x : Res A * S * list Effect) : S := x.1.2.
Definition trace {S A} (x : Res A * S * list Effect) : list Effect := x.2.

(** A call of one of the two repeat setters. *)
Inductive RepeatCall :=
| CallTrackRepeat (repeat : bool)
| CallQueueRepeat (repeat : bool).

Definition repeat_call (c : RepeatCall) : M Player.t unit :=
  match c with
  | CallTrackRepeat b => Player.setTrackRepeat b
  | CallQueueRepeat b => Player.setQueueRepeat b
  end.

(** The Player after each call of a sequence, in order. *)
Fixpoint repeat_states (p : Player.t) (cs : list RepeatCall) : list Player.t :=
  match cs with
  | [] => []
  | c :: cs' => let p' := final (repeat_call c p) in p' :: repeat_states p' cs'
  end.

(** The gain the update list [bs] leaves in slot [i]: that of the last
    band object addressing [i], if there is one. *)
Definition last_gain (i : nat) (bs : list JsObject) : option Q :=
  foldl (λ acc b,
    match prop "band" b, prop "gain" b with
    | Some k, Some g => if bool_decide (as_index k = Some i) then Some g else acc
    | _, _ => acc
    end) None bs.

(** A band object addressing one of the 15 slots. *)
Definition in_range_band (b : JsObject) : Prop :=
  ∃ k i, prop "band" b = Some k ∧ as_index k = Some i ∧ (i < 15)%nat.

(** How many merged voice updates the trace hands to a Node for the
    Session of guild [g]. *)
Definition is_voice_dispatch (g : string) (e : Effect) : bool :=
  match e with
  | NodeSend _ g' (OpVoiceUpdate _) => String.eqb g' g
  | _ => false
  end.

Definition voice_dispatches (g : string) (tr : list Effect) : nat :=
  length (List.filter (is_voice_dispatch g) tr).

(** The [play] operations in a trace. *)
Definition is_play (e : Effect) : bool :=
  match e with
  | NodeSend _ _ (OpPlay _ _ _) => true
  | _ => false
  end.

(** The gain array of a freshly constructed Session. *)
Definition initial_bands : JsArray :=
  replicate 4 (Some (15 # 100)) ++ replicate 11 (Some 0).

(** The Session a successful construction leaves, and what it sends. *)
Definition constructed (o : PlayerOptions.t) (node : string) (v : Q) : Player.t :=
  Player.set_bands initial_bands
    (Player.set_volume (Some (Math_max (Math_min v 1000) 0)) (Manager.fields o node)).

Definition construction_trace (g node : string) (v : Q) : list Effect :=
  [Emit (playerCreate g);
   NodeSend node g (OpVolume g (Math_max (Math_min v 1000) 0));
   NodeSend node g (OpEqualizer g (Player.equalizer_bands initial_bands))].

Definition at_most_one_repeat (p : Player.t) : Prop :=
  ¬ (Player.trackRepeat p = true ∧ Player.queueRepeat p = true).

(** The Session of guild [g] is registered and its credential record has
    neither [op] nor [guildId]. *)
Definition credentials_reset (g : string) (m : Manager.t) : Prop :=
  ∃ p, Collection.get g (Manager.players m) = Some p
       ∧ VoiceState.op (Player.voiceState p) = None
       ∧ VoiceState.guildId (Player.voiceState p) = None.

(** ** Sample data *)

Definition node_A : Node.t := Node.mk "A" true 1 None.
Definition node_B : Node.t := Node.mk "B" true 5 None.
Definition node_C : Node.t := Node.mk "C" false 0 None.

(** Guild 123, text channel 5, voice channel 7, nothing else given. *)
Definition options_123 : PlayerOptions.t :=
  PlayerOptions.mk "123" (Some "5") (Some "7") None None None None.

(** The Session [new Player(options_123)] yields when assigned Node A. *)
Definition player_123 : Player.t :=
  {| Player.options := options_123;
     Player.queue := Queue.empty;
     Player.trackRepeat := false;
     Player.queueRepeat := false;
     Player.position := 0;
     Player.playing := false;
     Player.paused := false;
     Player.volume := Some 100;
     Player.node := "A";
     Player.guild := "123";
     Player.voiceChannel := Some "7";
     Player.textChannel := Some "5";
     Player.state := DISCONNECTED;
     Player.bands := initial_bands;
     Player.voiceState :=
       {| VoiceState.op := Some "voiceUpdate";
          VoiceState.guildId := Some "123";
          VoiceState.event := None;
          VoiceState.sessionId := None |} |}.

(** Three Nodes, two of them connected; the bot's user id is 999. *)
Definition manager_0 : Manager.t :=
  Manager.mk [] [("A", node_A); ("B", node_B); ("C", node_C)]
    (Manager.mkOptions (Some "999")).

(** The same with the Session of guild 123 registered. *)
Definition manager_1 : Manager.t :=
  Manager.mk [("123", player_123)] (Manager.nodes manager_0)
    (Manager.options manager_0).

(** The same Nodes, none of them connected. *)
Definition manager_offline : Manager.t :=
  Manager.mk []
    [("A", Node.mk "A" false 1 None); ("B", Node.mk "B" false 5 None)]
    (Manager.mkOptions (Some "999")).

Definition track_1 : Track.t := Track.mk "QAAAjQIA" "Song" "Artist" 100000.

(** The two credential fragments for guild 123. *)
Definition server_fragment : VoiceData :=
  Packet (Some "VOICE_SERVER_UPDATE")
    (Some (UServer (VoiceServer.mk "tok" "123" "eu.example"))).

Definition state_fragment : VoiceData :=
  Packet (Some "VOICE_STATE_UPDATE")
    (Some (UState (VoiceStateUpdate.mk "123" "999" "sess" (Some "7")))).

(** The state fragment of an external disconnect: no channel. *)
Definition kicked_fragment : VoiceStateUpdate.t :=
  VoiceStateUpdate.mk "123" "999" "sess" None.

Definition track_2 : Track.t := Track.mk "QAAAkgIA" "Tune" "Band" 200000.
Definition track_3 : Track.t := Track.mk "QAAAlwIA" "Air" "Duo" 300000.

(** The sample Session with three upcoming tracks. *)
Definition player_queued : Player.t :=
  Player.set_queue
    {| Queue.items := [Resolved track_1; Resolved track_2; Resolved track_3];
       Queue.current := None;
       Queue.previous := None |} player_123.

(** ** Vocabulary of the further statements *)

(** The keys of a registry, in order. *)
Definition keys {V} (c : list (string * V)) : list string := c.*1.

(** A Session's credential record names its own guild, or has been
    emptied of [op] and [guildId] together. *)
Definition credentials_of (g : string) (vs : VoiceState.t) : Prop :=
  (VoiceState.op vs = Some "voiceUpdate" ∧ VoiceState.guildId vs = Some g)
  ∨ (VoiceState.op vs = None ∧ VoiceState.guildId vs = None).

(** One Session per guild, each registered under its own guild id and
    holding credentials of that guild. *)
Definition registry_ok (m : Manager.t) : Prop :=
  NoDup (keys (Manager.players m))
  ∧ ∀ g p, (g, p) ∈ Manager.players m →
           Player.guild p = g ∧ credentials_of g (Player.voiceState p).

(** What a caller of the Manager may do to the registry. *)
Inductive Action :=
| DoCreate (o : PlayerOptions.t)
| DoUpdateVoiceState (d : VoiceData)
| DoDestroy (guild : string).

Definition act (a : Action) (m : Manager.t) : Manager.t :=
  match a with
  | DoCreate o => final (Manager.create o m)
  | DoUpdateVoiceState d => final (Manager.updateVoiceState d m)
  | DoDestroy g => final (Manager.destroy g m)
  end.

Definition acts (l : list Action) (m : Manager.t) : Manager.t :=
  foldl (λ m a, act a m) m l.

(** The calls of a trace that reach a Node. *)
Definition is_NodeSend (e : Effect) : bool :=
  match e with
  | NodeSend _ _ _ => true
  | _ => false
  end.

Definition node_sends (tr : list Effect) : list Effect := List.filter is_NodeSend tr.


(** The sample Session while a track plays. *)
Definition player_playing : Player.t :=
  Player.set_playing_paused true false
    (Player.set_queue
       {| Queue.items := [Resolved track_2];
          Queue.current := Some (Resolved track_1);
          Queue.previous := None |} player_123).

(** An unresolved track, and a resolver that finds nothing. *)
Definition unresolved_1 : UnresolvedTrack.t :=
  UnresolvedTrack.mk "Lost song" None None.

Definition resolve_nothing (u : UnresolvedTrack.t) : option Track.t := None.


(** Two Nodes whose loads differ as fractions and agree in binary64:
    A with load 1 on 3 cores, B with load 0.3333333333333333 on 1. *)
Definition manager_tied : Manager.t :=
  Manager.mk []
    [("A", Node.mk "A" true 0 (Some (Node.mkCpu 1 3)));
     ("B", Node.mk "B" true 0 (Some (Node.mkCpu 0x1.5555555555555p-2 1)))]
    (Manager.mkOptions (Some "999")).

(** The Session once [play] has taken its track argument,
    Player.ts:255-261. *)
Definition play_entered (arg : option PlayArg) (p : Player.t) : Player.t :=
  match arg with
  | Some (ArgTrack e) =>
      Player.set_queue
        {| Queue.items := Queue.items (Player.queue p);
           Queue.current := Some e;
           Queue.previous :=
             match Queue.current (Player.queue p) with
             | Some c => Some c
             | None => Queue.previous (Player.queue p)
             end |} p
  | _ => p
  end.

(** The sample Session with one unresolved track upcoming. *)
Definition player_unresolved : Player.t :=
  Player.set_queue
    {| Queue.items := [Unresolved unresolved_1];
       Queue.current := None;
       Queue.previous := None |} player_123.

(** A resolver that knows no track but the sample one. *)
Definition resolve_sample (u : UnresolvedTrack.t) : option Track.t :=
  if String.eqb (UnresolvedTrack.title u) "Song" then Some track_1 else None.

(** What [check] asks of the options: a guild id of digits, and text and
    voice channel ids of digits where they are given and not empty. *)
Definition valid_options (o : PlayerOptions.t) : Prop :=
  digits_only (PlayerOptions.guild o) = true
  ∧ (∀ c, PlayerOptions.textChannel o = Some c → c ≠ "" → digits_only c = true)
  ∧ (∀ c, PlayerOptions.voiceChannel o = Some c → c ≠ "" → digits_only c = true).

(** Options naming the disconnected Node B, and options with a volume
    that is not a number. *)
Definition options_on_B : PlayerOptions.t :=
  PlayerOptions.mk "123" (Some "5") (Some "7") (Some "B") None None None.

(** Options with a volume above the range. *)
Definition options_loud : PlayerOptions.t :=
  PlayerOptions.mk "123" (Some "5") (Some "7") None (Some (Num 5000)) None None.

Definition options_nan : PlayerOptions.t :=
  PlayerOptions.mk "123" (Some "5") (Some "7") None (Some NaN) None None.

Definition options_bad_guild : PlayerOptions.t :=
  PlayerOptions.mk "12a" (Some "5") (Some "7") None None None None.

(** * Properties *)

(** ** The registry *)

Section CollectionFacts.
Context {V : Type}.
Implicit Types (c : list (string * V)) (k : string) (v : V).

Lemma get_set_eq c k v : Collection.get k (Collection.set k v c) = Some v.
Proof.
  induction c as [|[k' v'] c IH]; simpl.
  - by rewrite String.eqb_refl.
  - destruct (String.eqb k' k) eqn:E; simpl.
    + by rewrite String.eqb_refl.
    + by rewrite E.
Qed.

Lemma get_set_ne c k k' v :
  k ≠ k' → Collection.get k' (Collection.set k v c) = Collection.get k' c.
Proof.
  intros Hne. induction c as [|[k0 v0] c IH]; simpl.
  - destruct (String.eqb_spec k k'); [done|done].
  - destruct (String.eqb_spec k0 k) as [->|Hk]; simpl.
    + destruct (String.eqb_spec k k'); [done|done].
    + destruct (String.eqb k0 k'); [done|apply IH].
Qed.

Lemma elem_of_insert le0 (x y : string * V) c :
  x ∈ Collection.insert le0 y c ↔ x = y ∨ x ∈ c.
Proof.
  induction c as [|z c IH]; simpl.
  - rewrite list_elem_of_singleton, elem_of_nil. tauto.
  - destruct (le0 y.2 z.2).
    + by rewrite elem_of_cons.
    + rewrite !elem_of_cons, IH. tauto.
Qed.

Lemma elem_of_sort le0 (x : string * V) c :
  x ∈ Collection.sort le0 c ↔ x ∈ c.
Proof.
  induction c as [|z c IH]; simpl; [done|].
  by rewrite elem_of_insert, elem_of_cons, IH.
Qed.

Lemma elem_of_Collection_filter f (x : string * V) c :
  x ∈ Collection.filter f c ↔ x ∈ c ∧ f x.2 = true.
Proof.
  unfold Collection.filter. rewrite !list_elem_of_In, filter_In. done.
Qed.

Lemma first_Some_elem c x : Collection.first c = Some x → x ∈ c.
Proof. destruct c; simpl; [done|]. intros [= ->]. apply elem_of_cons; by left. Qed.
End CollectionFacts.

(** ** Repeat flags *)

Lemma repeat_call_exclusive c p : at_most_one_repeat (final (repeat_call c p)).
Proof. destruct c as [[]|[]]; intros [H1 H2]; simpl in *; congruence. Qed.

(** C5.  Whatever sequence of [setTrackRepeat] / [setQueueRepeat] calls
    is made, and whatever the flags were before, after every call of the
    sequence at most one of [trackRepeat] and [queueRepeat] is true.
    Enabling one flag sets it and clears the other; a call with [false]
    of either setter clears both.  No call throws or sends anything. *)
Theorem repeat_flags_exclusive :
  (∀ p cs, Forall at_most_one_repeat (repeat_states p cs))
  ∧ (∀ p, let p' := final (Player.setTrackRepeat true p) in
          Player.trackRepeat p' = true ∧ Player.queueRepeat p' = false)
  ∧ (∀ p, let p' := final (Player.setQueueRepeat true p) in
          Player.queueRepeat p' = true ∧ Player.trackRepeat p' = false)
  ∧ (∀ p, let p' := final (Player.setTrackRepeat false p) in
          Player.trackRepeat p' = false ∧ Player.queueRepeat p' = false)
  ∧ (∀ p, let p' := final (Player.setQueueRepeat false p) in
          Player.trackRepeat p' = false ∧ Player.queueRepeat p' = false)
  ∧ (∀ p c, result (repeat_call c p) = Ok tt ∧ trace (repeat_call c p) = []).
Proof.
  repeat split.
  - intros p cs. revert p.
    induction cs as [|c cs IH]; intros p; simpl; constructor.
    + apply repeat_call_exclusive.
    + apply IH.
  - by destruct c as [[]|[]].
  - by destruct c as [[]|[]].
Qed.

(** ** Creating a Session twice *)

(** C7.  When the guild already has a Session, [create] returns that
    Session as it is: the Manager (registry, Nodes, every field of the
    existing Session, so its volume and bands too) is left as it was and
    nothing is sent or emitted.  The Player constructor called directly
    behaves the same. *)
Theorem create_existing_unchanged m o existing :
  Collection.get (PlayerOptions.guild o) (Manager.players m) = Some existing →
  Manager.create o m = (Ok existing, m, [])
  ∧ Manager.new_Player o m = (Ok existing, m, []).
Proof.
  intros H. unfold Manager.create, Manager.new_Player.
  unfold mbind, M_bind, bind, get_state; simpl. by rewrite H.
Qed.

Lemma create_existing_unchanged_witness :
  Collection.get "123" (Manager.players manager_1) = Some player_123
  ∧ Manager.create options_123 manager_1 = (Ok player_123, manager_1, [])
  ∧ Manager.new_Player options_123 manager_1 = (Ok player_123, manager_1, []).
Proof.
  split; [reflexivity|].
  apply (create_existing_unchanged manager_1 options_123 player_123). reflexivity.
Defined.

(** The sample Session is what construction yields. *)
Example create_sample :
  Manager.create options_123 manager_0
  = (Ok player_123, manager_1,
     [Emit (playerCreate "123");
      NodeSend "A" "123" (OpVolume "123" 100);
      NodeSend "A" "123" (OpEqualizer "123" (Player.equalizer_bands initial_bands))]).
Proof. reflexivity. Qed.

(** ** stop *)

(** C6, as the code has it.  [stop(n)] with [n > 1] and [n] greater than
    the queue length throws, leaving the Player as it was and sending
    nothing.  With [1 < n] within the queue length, exactly the first
    [n - 1] upcoming entries are removed and then one [stop] operation is
    sent.  With [n <= 1] nothing is removed and the [stop] operation is
    sent, whatever the queue length. *)
Theorem stop_skips p (n : Z) :
  let len := Z.of_nat (Queue.length (Player.queue p)) in
  ((1 < n)%Z → (len < n)%Z →
     Player.stop (Some n) p
     = (Throw (RangeError "Cannot skip more than the queue length."), p, []))
  ∧ ((1 < n)%Z → (n ≤ len)%Z →
     ∃ p', Player.stop (Some n) p
           = (Ok tt, p', [NodeSend (Player.node p) (Player.guild p)
                            (OpStop (Player.guild p))])
       ∧ Queue.items (Player.queue p')
         = drop (Z.to_nat (n - 1)) (Queue.items (Player.queue p))
       ∧ (Z.of_nat (Queue.length (Player.queue p')) = len - (n - 1))%Z
       ∧ Queue.current (Player.queue p') = Queue.current (Player.queue p))
  ∧ ((n ≤ 1)%Z →
     Player.stop (Some n) p
     = (Ok tt, p, [NodeSend (Player.node p) (Player.guild p)
                     (OpStop (Player.guild p))])).
Proof.
  intros len. unfold Player.stop, mbind, M_bind, bind, get_state. simpl.
  repeat split.
  - intros H1 H2.
    destruct (Z.ltb_spec 1 n); [|lia].
    destruct (Z.ltb_spec (Z.of_nat (Queue.length (Player.queue p))) n); [done|].
    subst len. lia.
  - intros H1 H2.
    destruct (Z.ltb_spec 1 n); [|lia].
    destruct (Z.ltb_spec (Z.of_nat (Queue.length (Player.queue p))) n);
      [subst len; lia|].
    eexists. split; [reflexivity|]. simpl. split; [done|]. split; [|done].
    unfold Queue.length in *. simpl. rewrite length_drop. subst len. lia.
  - intros H. destruct (Z.ltb_spec 1 n); [lia|]. done.
Qed.

Lemma stop_skips_witness :
  Player.stop (Some 5%Z) player_queued
  = (Throw (RangeError "Cannot skip more than the queue length."), player_queued, [])
  ∧ (∃ p', Player.stop (Some 2%Z) player_queued
           = (Ok tt, p', [NodeSend "A" "123" (OpStop "123")])
       ∧ Queue.items (Player.queue p') = [Resolved track_2; Resolved track_3])
  ∧ Player.stop (Some 1%Z) player_queued
    = (Ok tt, player_queued, [NodeSend "A" "123" (OpStop "123")]).
Proof.
  split; [|split].
  - apply (stop_skips player_queued 5); cbn; lia.
  - destruct (proj1 (proj2 (stop_skips player_queued 2))) as (p' & H1 & H2 & _);
      [cbn; lia | cbn; lia |].
    exists p'. split; [exact H1 | exact H2].
  - apply (stop_skips player_queued 1); cbn; lia.
Defined.

(** C6 as stated fails at [n = 1] on an empty queue: 1 is greater than
    the queue length, yet the call succeeds and sends [stop]. *)
Lemma stop_one_on_empty_queue :
  (Z.of_nat (Queue.length (Player.queue player_123)) < 1)%Z
  ∧ Player.stop (Some 1%Z) player_123
    = (Ok tt, player_123, [NodeSend "A" "123" (OpStop "123")]).
Proof. split; [cbn; lia | reflexivity]. Qed.

(** ** The equalizer *)

Lemma insert_key_perm k l : insert_key k l ≡ₚ k :: l.
Proof.
  induction l as [|k' l IH]; simpl; [done|].
  destruct (String.leb k k'); [done|].
  rewrite IH. apply Permutation_swap.
Qed.

Lemma sort_keys_perm l : sort_keys l ≡ₚ l.
Proof.
  induction l as [|k l IH]; simpl; [done|].
  by rewrite insert_key_perm, IH.
Qed.

(** The check of line 138 accepts exactly the objects whose keys are
    [band] and [gain], in either order. *)
Lemma has_band_and_gain_spec b :
  Player.has_band_and_gain b = true ↔ Object_keys b ≡ₚ ["band"; "gain"].
Proof.
  unfold Player.has_band_and_gain. rewrite bool_decide_eq_true. split.
  - intros <-. symmetry. apply sort_keys_perm.
  - intros H. symmetry in H.
    apply Permutation_length_2_inv in H as [-> | ->]; reflexivity.
Qed.

Lemma band_object_shape b :
  Object_keys b ≡ₚ ["band"; "gain"] →
  ∃ k g, b = [("band", k); ("gain", g)] ∨ b = [("gain", g); ("band", k)].
Proof.
  intros H. symmetry in H. unfold Object_keys in H.
  apply Permutation_length_2_inv in H as [H | H];
    destruct b as [|[k1 v1] [|[k2 v2] [|? ?]]]; simplify_eq/=.
  - exists v1, v2. by left.
  - exists v2, v1. by right.
Qed.

Lemma band_object_props b :
  Object_keys b ≡ₚ ["band"; "gain"] →
  ∃ k g, prop "band" b = Some k ∧ prop "gain" b = Some g.
Proof.
  intros H. destruct (band_object_shape b H) as (k & g & [-> | ->]);
    exists k, g; done.
Qed.

Lemma forallb_has_band_and_gain bs :
  forallb Player.has_band_and_gain bs = true
  ↔ Forall (λ b, Object_keys b ≡ₚ ["band"; "gain"]) bs.
Proof.
  rewrite forallb_forall, Forall_forall.
  split; intros H b Hb; apply has_band_and_gain_spec, H.
  - by apply list_elem_of_In.
  - by apply list_elem_of_In.
Qed.

(** What [setEQ] does once the check of line 138 has passed. *)
Lemma setEQ_accepts p bs :
  bs ≠ [] → Forall (λ b, Object_keys b ≡ₚ ["band"; "gain"]) bs →
  Player.setEQ bs p
  = (Ok tt, Player.set_bands (foldl Player.assign_band (Player.bands p) bs) p,
     [NodeSend (Player.node p) (Player.guild p)
        (OpEqualizer (Player.guild p)
           (Player.equalizer_bands (foldl Player.assign_band (Player.bands p) bs)))]).
Proof.
  intros Hne Hall. unfold Player.setEQ.
  apply forallb_has_band_and_gain in Hall. rewrite Hall.
  destruct bs; [done|]. reflexivity.
Qed.

Lemma setEQ_rejects p bs :
  ¬ (bs ≠ [] ∧ Forall (λ b, Object_keys b ≡ₚ ["band"; "gain"]) bs) →
  Player.setEQ bs p
  = (Throw (RangeError
       "Bands must be a non-empty object array containing 'band' and 'gain' properties."),
     p, []).
Proof.
  intros Hno. unfold Player.setEQ.
  destruct bs as [|b bs]; [done|].
  destruct (forallb Player.has_band_and_gain (b :: bs)) eqn:E; [|done].
  exfalso. apply Hno. split; [done|]. by apply forallb_has_band_and_gain.
Qed.

(** In-range assignments keep the length and change only their slot. *)
Lemma foldl_assign_band_in_range bs : ∀ a,
  Forall (λ b, Object_keys b ≡ₚ ["band"; "gain"]) bs →
  Forall in_range_band bs →
  length a = 15%nat →
  length (foldl Player.assign_band a bs) = 15%nat
  ∧ ∀ i, foldl Player.assign_band a bs !! i
         = match last_gain i bs with
           | Some g => Some (Some g)
           | None => a !! i
           end.
Proof.
  induction bs as [|b bs IH] using rev_ind; intros a Hk Hr Ha.
  - simpl. done.
  - apply Forall_app in Hk as [Hk Hb]. apply Forall_app in Hr as [Hr Hrb].
    rewrite Forall_singleton in Hb. rewrite Forall_singleton in Hrb.
    destruct (IH a Hk Hr Ha) as [Hlen Hlook].
    destruct (band_object_props b Hb) as (k & g & Hband & Hgain).
    destruct Hrb as (k' & j & Hband' & Hidx & Hj).
    rewrite Hband in Hband'. injection Hband' as <-.
    rewrite foldl_snoc. unfold Player.assign_band at 1 3.
    rewrite Hband, Hgain. unfold array_set. rewrite Hidx.
    destruct (Nat.ltb_spec j (length (foldl Player.assign_band a bs))); [|lia].
    split; [etrans; [apply length_insert | done]|].
    intros i. unfold last_gain. rewrite foldl_snoc, Hband, Hgain.
    fold (last_gain i bs). case_bool_decide as Hi.
    + rewrite Hidx in Hi. injection Hi as ->. by apply list_lookup_insert_eq.
    + etrans; [apply list_lookup_insert_ne; congruence | apply Hlook].
Qed.

Lemma last_gain_snoc i bs b :
  last_gain i (bs ++ [b])
  = match prop "band" b, prop "gain" b with
    | Some k, Some g => if bool_decide (as_index k = Some i) then Some g else last_gain i bs
    | _, _ => last_gain i bs
    end.
Proof. unfold last_gain. by rewrite foldl_snoc. Qed.

(** A slot no band object addresses has no new gain. *)
Lemma last_gain_unaddressed i bs :
  (∀ b k, b ∈ bs → prop "band" b = Some k → as_index k ≠ Some i) →
  last_gain i bs = None.
Proof.
  induction bs as [|b bs IH] using rev_ind; intros H; [done|].
  rewrite last_gain_snoc.
  assert (last_gain i bs = None) as ->.
  { apply IH. intros b' k Hb'. apply H, elem_of_app. by left. }
  destruct (prop "band" b) as [k|] eqn:Hk; [|done].
  destruct (prop "gain" b); [|done].
  rewrite bool_decide_eq_false_2; [done|].
  apply (H b k); [|done]. apply elem_of_app. right. by apply list_elem_of_singleton.
Qed.

(** A new gain comes from a band object of the list addressing the slot. *)
Lemma last_gain_addressed i bs g :
  last_gain i bs = Some g →
  ∃ b k, b ∈ bs ∧ prop "band" b = Some k ∧ as_index k = Some i
         ∧ prop "gain" b = Some g.
Proof.
  induction bs as [|b bs IH] using rev_ind; intros H; [done|].
  rewrite last_gain_snoc in H.
  assert (last_gain i bs = Some g →
          ∃ b0 k, b0 ∈ bs ++ [b] ∧ prop "band" b0 = Some k
                  ∧ as_index k = Some i ∧ prop "gain" b0 = Some g) as Hold.
  { intros H'. destruct (IH H') as (b0 & k & ? & ?).
    exists b0, k. split; [apply elem_of_app; by left | done]. }
  destruct (prop "band" b) as [k|] eqn:Hk; [|by apply Hold].
  destruct (prop "gain" b) as [g'|] eqn:Hg; [|by apply Hold].
  case_bool_decide as Hi; [|by apply Hold].
  injection H as ->. exists b, k.
  split; [apply elem_of_app; right; by apply list_elem_of_singleton | done].
Qed.

(** C8.  A valid update is a non-empty list of objects with exactly the
    keys [band] and [gain], each addressing one of the slots 0..14 of a
    15-element gain array.  Then [setEQ] succeeds, changes no field of
    the Player but [bands], keeps the array at 15 elements, puts into
    every addressed slot the gain given for it (the last one, if a slot
    is addressed more than once) and leaves every other slot as it was;
    the array is sent in one [equalizer] operation.  [clearEQ] always
    leaves 15 zeros. *)
Theorem setEQ_frame :
  (∀ p bs,
     length (Player.bands p) = 15%nat → bs ≠ [] →
     Forall (λ b, Object_keys b ≡ₚ ["band"; "gain"]) bs →
     Forall in_range_band bs →
     ∃ a', Player.setEQ bs p
           = (Ok tt, Player.set_bands a' p,
              [NodeSend (Player.node p) (Player.guild p)
                 (OpEqualizer (Player.guild p) (Player.equalizer_bands a'))])
       ∧ length a' = 15%nat
       ∧ (∀ i, a' !! i = match last_gain i bs with
                         | Some g => Some (Some g)
                         | None => Player.bands p !! i
                         end)
       ∧ (∀ i, (∀ b k, b ∈ bs → prop "band" b = Some k → as_index k ≠ Some i) →
               a' !! i = Player.bands p !! i)
       ∧ (∀ i g, last_gain i bs = Some g →
               ∃ b k, b ∈ bs ∧ prop "band" b = Some k ∧ as_index k = Some i
                      ∧ prop "gain" b = Some g))
  ∧ (∀ p, Player.clearEQ p
          = (Ok tt, Player.set_bands (replicate 15 (Some 0)) p,
             [NodeSend (Player.node p) (Player.guild p)
                (OpEqualizer (Player.guild p)
                   (Player.equalizer_bands (replicate 15 (Some 0))))])).
Proof.
  split; [|reflexivity].
  intros p bs Hlen Hne Hk Hr.
  exists (foldl Player.assign_band (Player.bands p) bs).
  split; [by apply setEQ_accepts|].
  destruct (foldl_assign_band_in_range bs (Player.bands p) Hk Hr Hlen) as [Hl Hi].
  split; [done|]. split; [done|]. split.
  - intros i Hun. by rewrite Hi, (last_gain_unaddressed i bs Hun).
  - intros i g. apply last_gain_addressed.
Qed.

Lemma setEQ_frame_witness :
  let bs := [[("band", 2); ("gain", 1 # 2)]; [("gain", 1 # 4); ("band", 14)]] in
  ∃ a', Player.setEQ bs player_123
        = (Ok tt, Player.set_bands a' player_123,
           [NodeSend "A" "123" (OpEqualizer "123" (Player.equalizer_bands a'))])
    ∧ length a' = 15%nat
    ∧ a' !! 2%nat = Some (Some (1 # 2))
    ∧ a' !! 14%nat = Some (Some (1 # 4))
    ∧ a' !! 3%nat = Some (Some (15 # 100)).
Proof.
  intros bs.
  destruct (proj1 setEQ_frame player_123 bs) as (a' & Hrun & Hlen & Hi & _).
  - reflexivity.
  - discriminate.
  - repeat constructor; apply has_band_and_gain_spec; reflexivity.
  - repeat constructor.
    + exists 2, 2%nat. split; [reflexivity|]. split; [reflexivity | lia].
    + exists 14, 14%nat. split; [reflexivity|]. split; [reflexivity | lia].
  - exists a'. split; [exact Hrun|]. split; [exact Hlen|].
    split; [|split]; rewrite Hi; reflexivity.
Defined.

(** ** What setEQ checks *)

(** C4, as the code has it.  [setEQ] throws, changing nothing and sending
    nothing, exactly when the band list is empty or some object's keys
    are not exactly [band] and [gain]; otherwise it succeeds whatever the
    band numbers are.  A band number at or beyond the end of the gain
    array is not rejected: the array grows up to that index (with holes
    in between) and is sent.  A band number that is no array index
    (negative or fractional) leaves the elements as they are, and the
    array is sent all the same. *)
Theorem setEQ_validation p bs :
  (bs ≠ [] ∧ Forall (λ b, Object_keys b ≡ₚ ["band"; "gain"]) bs →
     Player.setEQ bs p
     = (Ok tt, Player.set_bands (foldl Player.assign_band (Player.bands p) bs) p,
        [NodeSend (Player.node p) (Player.guild p)
           (OpEqualizer (Player.guild p)
              (Player.equalizer_bands
                 (foldl Player.assign_band (Player.bands p) bs)))]))
  ∧ (¬ (bs ≠ [] ∧ Forall (λ b, Object_keys b ≡ₚ ["band"; "gain"]) bs) →
     Player.setEQ bs p
     = (Throw (RangeError
          "Bands must be a non-empty object array containing 'band' and 'gain' properties."),
        p, []))
  ∧ (∀ k g i, as_index k = Some i → (length (Player.bands p) ≤ i)%nat →
     let grown :=
       Player.bands p ++ replicate (i - length (Player.bands p)) None ++ [Some g] in
     Player.setEQ [[("band", k); ("gain", g)]] p
     = (Ok tt, Player.set_bands grown p,
        [NodeSend (Player.node p) (Player.guild p)
           (OpEqualizer (Player.guild p) (Player.equalizer_bands grown))]))
  ∧ (∀ k g, as_index k = None →
     Player.setEQ [[("band", k); ("gain", g)]] p
     = (Ok tt, p,
        [NodeSend (Player.node p) (Player.guild p)
           (OpEqualizer (Player.guild p)
              (Player.equalizer_bands (Player.bands p)))])).
Proof.
  split; [|split; [|split]].
  - intros [Hne Hall]. by apply setEQ_accepts.
  - apply setEQ_rejects.
  - intros k g i Hidx Hle grown.
    rewrite setEQ_accepts; [|done|by repeat constructor].
    simpl. unfold Player.assign_band, array_set. simpl. rewrite Hidx.
    destruct (Nat.ltb_spec i (length (Player.bands p))); [lia|]. done.
  - intros k g Hidx.
    rewrite setEQ_accepts; [|done|by repeat constructor].
    simpl. unfold Player.assign_band, array_set. simpl. rewrite Hidx.
    by destruct p.
Qed.

Lemma setEQ_validation_witness :
  Player.setEQ [[("band", 1); ("gain", 1 # 2)]] player_123
  = (Ok tt,
     Player.set_bands
       (foldl Player.assign_band initial_bands [[("band", 1); ("gain", 1 # 2)]])
       player_123,
     [NodeSend "A" "123"
        (OpEqualizer "123"
           (Player.equalizer_bands
              (foldl Player.assign_band initial_bands
                 [[("band", 1); ("gain", 1 # 2)]])))])
  ∧ Player.setEQ [[("band", 1); ("gain", 1 # 2); ("q", 1)]] player_123
    = (Throw (RangeError
         "Bands must be a non-empty object array containing 'band' and 'gain' properties."),
       player_123, [])
  ∧ Player.setEQ [[("band", 16); ("gain", 1 # 2)]] player_123
    = (Ok tt,
       Player.set_bands (initial_bands ++ [None; Some (1 # 2)]) player_123,
       [NodeSend "A" "123"
          (OpEqualizer "123"
             (Player.equalizer_bands (initial_bands ++ [None; Some (1 # 2)])))])
  ∧ Player.setEQ [[("band", -1); ("gain", 1 # 2)]] player_123
    = (Ok tt, player_123,
       [NodeSend "A" "123"
          (OpEqualizer "123" (Player.equalizer_bands initial_bands))]).
Proof.
  split; [|split; [|split]].
  - apply (setEQ_validation player_123 [[("band", 1); ("gain", 1 # 2)]]).
    split; [discriminate|].
    repeat constructor; apply has_band_and_gain_spec; reflexivity.
  - apply (setEQ_validation player_123 [[("band", 1); ("gain", 1 # 2); ("q", 1)]]).
    intros [_ H]. rewrite Forall_singleton in H.
    apply has_band_and_gain_spec in H. discriminate H.
  - apply (proj1 (proj2 (proj2 (setEQ_validation player_123 []))) 16 (1 # 2) 16%nat).
    + reflexivity.
    + simpl. lia.
  - apply (proj2 (proj2 (proj2 (setEQ_validation player_123 []))) (-1) (1 # 2)).
    reflexivity.
Defined.

(** C4 as stated fails at band 20: the index lies outside the 15 slots,
    yet the call succeeds, the array grows to 21 elements and is sent. *)
Lemma setEQ_out_of_range_accepted :
  as_index 20 = Some 20%nat
  ∧ (15 ≤ 20)%nat
  ∧ Player.setEQ [[("band", 20); ("gain", 1 # 2)]] player_123
    = (Ok tt,
       Player.set_bands (initial_bands ++ replicate 5 None ++ [Some (1 # 2)]) player_123,
       [NodeSend "A" "123"
          (OpEqualizer "123"
             (Player.equalizer_bands
                (initial_bands ++ replicate 5 None ++ [Some (1 # 2)])))])
  ∧ length (initial_bands ++ replicate 5 None ++ [Some (1 # 2)]) = 21%nat.
Proof. split; [reflexivity|]. split; [lia|]. split; reflexivity. Qed.

(** ** Constructing a Session *)

Lemma constructor_bands_valid :
  Forall (λ b, Object_keys b ≡ₚ ["band"; "gain"]) Player.constructor_bands.
Proof. repeat constructor. Qed.

Lemma constructor_bands_result :
  foldl Player.assign_band (Array_fill 15 0) Player.constructor_bands = initial_bands.
Proof. reflexivity. Qed.

Lemma clamp_in_range (v : Q) :
  0 <= v → v <= 1000 → Math_max (Math_min v 1000) 0 == v.
Proof.
  intros H0 H1. unfold Math_min, Math_max.
  apply Qle_bool_iff in H1. rewrite H1.
  destruct (Qle_bool v 0) eqn:E; [|reflexivity].
  apply Qle_bool_iff in E. by apply Qle_antisym.
Qed.

Lemma set_set_eq {V} (c : list (string * V)) k v v' :
  Collection.set k v' (Collection.set k v c) = Collection.set k v' c.
Proof.
  induction c as [|[k0 v0] c IH]; simpl.
  - by rewrite String.eqb_refl.
  - destruct (String.eqb k0 k) eqn:E; simpl.
    + by rewrite String.eqb_refl.
    + by rewrite E, IH.
Qed.

(** The constructor, case by case, for a guild without a Session. *)
Lemma new_Player_fresh m o :
  Collection.get (PlayerOptions.guild o) (Manager.players m) = None →
  let g := PlayerOptions.guild o in
  Manager.new_Player o m
  = match Player.check o with
    | Throw e => (Throw e, m, [])
    | Ok _ =>
        match Manager.assign_node o m with
        | None => (Throw (RangeError "No available nodes."), m, [])
        | Some (node, _) =>
            match default (Num 100) (PlayerOptions.volume o) with
            | NaN =>
                (Throw (TypeError "Volume must be a number."),
                 Manager.set_players
                   (Collection.set g (Manager.fields o node) (Manager.players m)) m,
                 [Emit (playerCreate g)])
            | Num v =>
                (Ok (constructed o node v),
                 Manager.set_players
                   (Collection.set g (constructed o node v) (Manager.players m)) m,
                 construction_trace g node v)
            end
        end
    end.
Proof.
  intros Hget g. unfold Manager.new_Player, mbind at 1, M_bind at 1, bind, get_state.
  fold g. unfold g at 1. rewrite Hget.
  destruct (Player.check o); [|done].
  destruct (Manager.assign_node o m) as [[node n]|]; [|done].
  destruct (default (Num 100) (PlayerOptions.volume o)) as [|v].
  - unfold Manager.on_player, mbind, M_bind, bind, modify, tell. simpl.
    unfold Manager.set_players. simpl. by rewrite set_set_eq.
  - unfold Manager.on_player, mbind, M_bind, bind, modify, tell. simpl.
    unfold Manager.set_players. simpl. by rewrite !set_set_eq.
Qed.

Lemma Qle_bool_false (a b : Q) : Qle_bool a b = false → b < a.
Proof.
  intros H. apply Qnot_le_lt. intros Hle. apply Qle_bool_iff in Hle. congruence.
Qed.

Lemma clamp_cases (q : Q) :
  let c := Math_max (Math_min q 1000) 0 in
  0 <= c ∧ c <= 1000
  ∧ (q < 0 → c = 0) ∧ (1000 < q → c = 1000)
  ∧ (0 <= q → q <= 1000 → c == q)
  ∧ Math_max (Math_min c 1000) 0 = c.
Proof.
  unfold Math_max, Math_min.
  destruct (Qle_bool q 1000) eqn:H1.
  - destruct (Qle_bool q 0) eqn:H0.
    + apply Qle_bool_iff in H1, H0. simpl.
      repeat split; try done; intros; lra.
    + rewrite H1, H0. apply Qle_bool_iff in H1. apply Qle_bool_false in H0.
      repeat split; try done; intros; lra.
  - simpl. apply Qle_bool_false in H1.
    repeat split; try done; intros; lra.
Qed.

(** C9, as the code has it.  A construction that succeeds for a guild
    without a Session emits [playerCreate] and then sends, to the
    assigned Node and in this order, one [volume] operation and one
    [equalizer] operation.  The volume sent, which is also the volume
    the Session then has, is the one given in the options, 100 when none
    is given, limited to the range 0..1000: a volume below 0 is sent as
    0, one above 1000 as 1000, one within the range as given.  The
    equalizer operation carries gain 0.15 in bands 0 to 3 and 0 in bands
    4 to 14, which is also the Session's gain array afterwards: it is
    not the flat array of 15 zeros.  [create] runs this constructor. *)
Theorem new_Player_initialises m o p m' tr :
  Collection.get (PlayerOptions.guild o) (Manager.players m) = None →
  Manager.new_Player o m = (Ok p, m', tr) →
  let g := PlayerOptions.guild o in
  Manager.create o m = (Ok p, m', tr)
  ∧ ∃ v c, default (Num 100) (PlayerOptions.volume o) = Num v
    ∧ tr = [Emit (playerCreate g);
            NodeSend (Player.node p) g (OpVolume g c);
            NodeSend (Player.node p) g
              (OpEqualizer g
                 (imap (λ i x, Some (mkBand i x))
                    (replicate 4 (15 # 100) ++ replicate 11 0)))]
    ∧ 0 <= c ∧ c <= 1000
    ∧ (v < 0 → c = 0) ∧ (1000 < v → c = 1000)
    ∧ (0 <= v → v <= 1000 → c == v)
    ∧ Player.volume p = Some c
    ∧ Player.bands p = Some <$> (replicate 4 (15 # 100) ++ replicate 11 0)
    ∧ Player.bands p ≠ Array_fill 15 0
    ∧ Player.guild p = g
    ∧ Collection.get g (Manager.players m') = Some p.
Proof.
  intros Hget Hrun g. split.
  { unfold Manager.create, mbind, M_bind, bind, get_state. simpl.
    rewrite Hget. by rewrite Hrun. }
  rewrite (new_Player_fresh m o Hget) in Hrun. fold g in Hrun.
  destruct (Player.check o); [|discriminate].
  destruct (Manager.assign_node o m) as [[node n]|]; [|discriminate].
  destruct (default (Num 100) (PlayerOptions.volume o)) as [|v]; [discriminate|].
  injection Hrun as <- <- <-.
  destruct (clamp_cases v) as (H0 & H1 & Hneg & Hbig & Hin & _).
  exists v, (Math_max (Math_min v 1000) 0).
  split; [done|]. split; [done|]. split; [done|]. split; [done|].
  split; [done|]. split; [done|]. split; [done|].
  split; [done|]. split; [done|]. split; [discriminate|]. split; [done|].
  simpl. apply get_set_eq.
Qed.

Lemma new_Player_initialises_witness :
  Collection.get "123" (Manager.players manager_0) = None
  ∧ Manager.new_Player options_123 manager_0
    = (Ok player_123, manager_1, construction_trace "123" "A" 100)
  ∧ Manager.create options_123 manager_0
    = (Ok player_123, manager_1, construction_trace "123" "A" 100).
Proof.
  split; [reflexivity|]. split; [reflexivity|].
  apply (new_Player_initialises manager_0 options_123 player_123 manager_1
           (construction_trace "123" "A" 100)); reflexivity.
Defined.

(** C9 as stated fails for a volume outside 0..1000: given 5000, the
    construction succeeds and the volume operation carries 1000. *)
Lemma construction_clamps_volume :
  PlayerOptions.volume options_loud = Some (Num 5000)
  ∧ Qeq_bool 5000 1000 = false
  ∧ result (Manager.create options_loud manager_0)
    = Ok (Player.set_volume (Some 1000) (constructed options_loud "A" 100))
  ∧ trace (Manager.create options_loud manager_0)
    = [Emit (playerCreate "123");
       NodeSend "A" "123" (OpVolume "123" 1000);
       NodeSend "A" "123" (OpEqualizer "123" (Player.equalizer_bands initial_bands))].
Proof. repeat split. Qed.

(** ** Node selection *)

Lemma sort_nil {V} le0 (c : list (string * V)) :
  Collection.sort le0 c = [] → c = [].
Proof.
  destruct c as [|x c]; [done|]. simpl.
  destruct (Collection.sort le0 c) as [|y r]; simpl; [done|].
  by destruct (le0 x.2 y.2).
Qed.

(** Both selection queries yield a Node exactly when one is connected,
    and what they yield first is a connected, registered Node. *)
Lemma first_sort_filter {V} le0 f (c : list (string * V)) :
  match Collection.first (Collection.sort le0 (Collection.filter f c)) with
  | Some x => x ∈ c ∧ f x.2 = true
  | None => ∀ x, x ∈ c → f x.2 = false
  end.
Proof.
  destruct (Collection.first _) as [x|] eqn:E.
  - apply first_Some_elem, elem_of_sort, elem_of_Collection_filter in E. done.
  - intros x Hx. destruct (f x.2) eqn:Hf; [|done].
    assert (x ∈ Collection.sort le0 (Collection.filter f c)) as Hin.
    { apply elem_of_sort, elem_of_Collection_filter. done. }
    destruct (Collection.sort le0 (Collection.filter f c)); [|done].
    by apply elem_of_nil in Hin.
Qed.

(** The order of [leastUsedNode] puts a Node with the most calls first. *)
Lemma sort_calls_head (c : list (string * Node.t)) h :
  Collection.first
    (Collection.sort (λ a b, (Node.calls b - Node.calls a <=? 0)%Z) c) = Some h →
  ∀ x, x ∈ c → (Node.calls x.2 ≤ Node.calls h.2)%Z.
Proof.
  revert h. induction c as [|y c IH]; intros h Hh x Hx.
  - by apply elem_of_nil in Hx.
  - simpl in Hh.
    destruct (Collection.sort _ c) as [|z r] eqn:Hs.
    + apply sort_nil in Hs. subst c. simpl in Hh. injection Hh as <-.
      apply list_elem_of_singleton in Hx. subst x. lia.
    + specialize (IH z eq_refl). simpl in Hh.
      destruct (Z.leb_spec (Node.calls z.2 - Node.calls y.2) 0);
        injection Hh as <-; apply elem_of_cons in Hx as [-> | Hx];
        try lia; specialize (IH x Hx); lia.
Qed.

Lemma leastUsedNode_first_most_used m k h :
  Collection.first (Manager.leastUsedNode m) = Some (k, h) →
  (k, h) ∈ Manager.nodes m ∧ Node.connected h = true
  ∧ ∀ k' n, (k', n) ∈ Manager.nodes m → Node.connected n = true →
            (Node.calls n ≤ Node.calls h)%Z.
Proof.
  intros H. unfold Manager.leastUsedNode in H.
  pose proof (first_sort_filter (λ a b, (Node.calls b - Node.calls a <=? 0)%Z)
                Node.connected (Manager.nodes m)) as Hf.
  rewrite H in Hf. destruct Hf as [Hin Hc]. split; [done|]. split; [done|].
  intros k' n Hn Hcn.
  apply (sort_calls_head _ _ H (k', n)).
  apply elem_of_Collection_filter. done.
Qed.

(** C2, on the code.  With Node A (1 call) and Node B (5 calls) both
    connected, [leastUsedNode] lists B before A and [search] takes B, the
    connected Node with the most calls, not the one with the fewest. *)
Theorem search_takes_most_used_node :
  Node.connected node_A = true ∧ Node.connected node_B = true
  ∧ (Node.calls node_A < Node.calls node_B)%Z
  ∧ Manager.leastUsedNode manager_0 = [("B", node_B); ("A", node_A)]
  ∧ Manager.search_node manager_0 = Ok ("B", node_B).
Proof. repeat split. Qed.

(** ** From creation to play *)

Lemma create_fresh m o :
  Collection.get (PlayerOptions.guild o) (Manager.players m) = None →
  Manager.create o m = Manager.new_Player o m.
Proof.
  intros Hget. unfold Manager.create, mbind, M_bind, bind, get_state. simpl.
  rewrite Hget. by destruct (Manager.new_Player o m) as [[r s] t].
Qed.

(** [play(track)] with a resolved track on any Session. *)
Lemma play_resolved resolve fuel tr p :
  Player.play resolve (S fuel) (Some (ArgTrack (Resolved tr))) None p
  = (Ok (Some tt),
     Player.set_queue
       {| Queue.items := Queue.items (Player.queue p);
          Queue.current := Some (Resolved tr);
          Queue.previous :=
            match Queue.current (Player.queue p) with
            | Some c => Some c
            | None => Queue.previous (Player.queue p)
            end |} p,
     [NodeSend (Player.node p) (Player.guild p)
        (OpPlay (Player.guild p) (Track.track tr) PlayOptions.none)]).
Proof. reflexivity. Qed.

(** C3, as the code has it.  Take a guild without a Session and options
    that name no registered Node.  While no Node is connected, creating
    the Session fails (with "No available nodes." once the options pass
    their checks), registers no Session and sends nothing.  With a
    connected Node registered, creation succeeds when the options are
    valid and their volume, if given, is not NaN, and it assigns a
    connected Node; on that Session [connect()] succeeds at once when a
    voice channel is set, and [play(track)] with a resolved track sends
    exactly one [play] operation, to the assigned Node, carrying the
    Session's guild id. *)
Theorem create_needs_connected_node m o :
  let g := PlayerOptions.guild o in
  Collection.get g (Manager.players m) = None →
  (PlayerOptions.node o ≫= λ k, Collection.get k (Manager.nodes m)) = None →
  ((∀ k n, (k, n) ∈ Manager.nodes m → Node.connected n = false) →
     ∃ e, Manager.create o m = (Throw e, m, [])
          ∧ (Player.check o = Ok tt → e = RangeError "No available nodes."))
  ∧ ((∃ k n, (k, n) ∈ Manager.nodes m ∧ Node.connected n = true) →
     Player.check o = Ok tt →
     PlayerOptions.volume o ≠ Some NaN →
     ∃ p m' tr k n,
       Manager.create o m = (Ok p, m', tr)
       ∧ Manager.get g m' = Some p
       ∧ Player.guild p = g
       ∧ Player.node p = k ∧ (k, n) ∈ Manager.nodes m ∧ Node.connected n = true
       ∧ (truthy (PlayerOptions.voiceChannel o) = true →
          ∃ payload,
            Player.connect p
            = (Ok tt, Player.set_state CONNECTED p, [GatewaySend g payload])
            ∧ d_channel_id payload = PlayerOptions.voiceChannel o)
       ∧ ∀ resolve fuel t,
           ∃ p', Player.play resolve (S fuel) (Some (ArgTrack (Resolved t))) None p
                 = (Ok (Some tt), p', [NodeSend k g (OpPlay g (Track.track t) PlayOptions.none)])
             ∧ Queue.current (Player.queue p') = Some (Resolved t)).
Proof.
  intros g Hget Hnamed.
  assert (Manager.assign_node o m = Collection.first (Manager.leastLoadNodes m)) as Hassign.
  { unfold Manager.assign_node.
    destruct (PlayerOptions.node o) as [k|]; simpl in *; [|done].
    by destruct (Collection.get k (Manager.nodes m)). }
  pose proof (first_sort_filter Manager.load_le0
                Node.connected (Manager.nodes m)) as Hfirst.
  fold (Manager.leastLoadNodes m) in Hfirst. rewrite <- Hassign in Hfirst.
  rewrite (create_fresh m o Hget), (new_Player_fresh m o Hget). fold g.
  split.
  - intros Hoff. destruct (Player.check o) as [[]|e].
    + destruct (Manager.assign_node o m) as [[k n]|].
      * destruct Hfirst as [Hin Hc]. simpl in Hc. rewrite (Hoff k n Hin) in Hc. done.
      * eexists. split; [reflexivity|done].
    + eexists. split; [reflexivity|done].
  - intros (k0 & n0 & Hin0 & Hc0) Hcheck Hvol. rewrite Hcheck.
    destruct (Manager.assign_node o m) as [[k n]|].
    2: { specialize (Hfirst (k0, n0) Hin0). simpl in Hfirst. congruence. }
    destruct Hfirst as [Hin Hc]. simpl in Hc.
    assert (∃ v, default (Num 100) (PlayerOptions.volume o) = Num v) as [v Hv].
    { destruct (PlayerOptions.volume o) as [[|v]|]; [done| |]; by eexists. }
    rewrite Hv.
    eexists (constructed o k v), _, _, k, n. split; [reflexivity|].
    split; [apply get_set_eq|]. split; [done|]. split; [done|].
    split; [done|]. split; [done|]. split.
    + intros Hvc. unfold Player.connect, mbind, M_bind, bind, get_state. simpl.
      rewrite Hvc. rewrite Hvc. simpl. eexists. split; [reflexivity|done].
    + intros resolve fuel t. rewrite play_resolved.
      eexists. split; [reflexivity|done].
Qed.

Lemma create_needs_connected_node_witness :
  (∃ e, Manager.create options_123 manager_offline = (Throw e, manager_offline, [])
        ∧ (Player.check options_123 = Ok tt → e = RangeError "No available nodes."))
  ∧ (∃ p m' tr k n,
       Manager.create options_123 manager_0 = (Ok p, m', tr)
       ∧ Manager.get "123" m' = Some p
       ∧ Player.guild p = "123"
       ∧ Player.node p = k ∧ (k, n) ∈ Manager.nodes manager_0
       ∧ Node.connected n = true
       ∧ (truthy (PlayerOptions.voiceChannel options_123) = true →
          ∃ payload,
            Player.connect p
            = (Ok tt, Player.set_state CONNECTED p, [GatewaySend "123" payload])
            ∧ d_channel_id payload = PlayerOptions.voiceChannel options_123)
       ∧ ∀ resolve fuel t,
           ∃ p', Player.play resolve (S fuel) (Some (ArgTrack (Resolved t))) None p
                 = (Ok (Some tt), p',
                    [NodeSend k "123" (OpPlay "123" (Track.track t) PlayOptions.none)])
             ∧ Queue.current (Player.queue p') = Some (Resolved t)).
Proof.
  split.
  - apply (create_needs_connected_node manager_offline options_123);
      [reflexivity | reflexivity |].
    intros k n H. apply list_elem_of_In in H. simpl in H.
    destruct H as [[= <- <-] | [[= <- <-] | []]]; reflexivity.
  - apply (create_needs_connected_node manager_0 options_123);
      [reflexivity | reflexivity | | reflexivity | discriminate].
    exists "A", node_A. split; [|reflexivity]. apply elem_of_cons. by left.
Defined.

(** C3 as stated fails at its first step: with no Node connected,
    creating the Session of guild 123 throws and registers nothing. *)
Lemma create_without_connected_node_fails :
  Collection.filter Node.connected (Manager.nodes manager_offline) = []
  ∧ Manager.create options_123 manager_offline
    = (Throw (RangeError "No available nodes."), manager_offline, []).
Proof. split; reflexivity. Qed.

(** ** Voice credentials *)

Lemma voice_dispatches_app g t1 t2 :
  voice_dispatches g (t1 ++ t2) = (voice_dispatches g t1 + voice_dispatches g t2)%nat.
Proof. unfold voice_dispatches. by rewrite List.filter_app, length_app. Qed.

(** A server fragment is stored and nothing more: no call is made. *)
Lemma server_fragment_sends_nothing d s m :
  Manager.update_of d = Some (UServer s) →
  result (Manager.updateVoiceState d m) = Ok tt
  ∧ trace (Manager.updateVoiceState d m) = [].
Proof.
  intros H. unfold Manager.updateVoiceState. rewrite H.
  unfold mbind, M_bind, bind, get_state. simpl.
  by destruct (Collection.get (VoiceServer.guild_id s) (Manager.players m)).
Qed.

(** C1, on the code.  For the fresh Session of guild 123: the server
    fragment followed by the state fragment gives one merged dispatch;
    the state fragment followed by the server fragment gives none,
    although the credential record then holds every required key; one
    fragment alone gives none. *)
Theorem voice_merge_depends_on_order :
  trace (Manager.updateVoiceStates [server_fragment; state_fragment] manager_1)
  = [NodeSend "A" "123"
       (OpVoiceUpdate
          {| VoiceState.op := Some "voiceUpdate";
             VoiceState.guildId := Some "123";
             VoiceState.event := Some (VoiceServer.mk "tok" "123" "eu.example");
             VoiceState.sessionId := Some "sess" |})]
  ∧ trace (Manager.updateVoiceStates [state_fragment; server_fragment] manager_1) = []
  ∧ voice_dispatches "123"
      (trace (Manager.updateVoiceStates [state_fragment; server_fragment] manager_1))
    = 0%nat
  ∧ (Player.voiceState
       <$> Manager.get "123"
             (final (Manager.updateVoiceStates [state_fragment; server_fragment] manager_1)))
    = (Player.voiceState
       <$> Manager.get "123"
             (final (Manager.updateVoiceStates [server_fragment; state_fragment] manager_1)))
  ∧ Manager.has_required_keys
      (default VoiceState.empty
         (Player.voiceState
            <$> Manager.get "123"
                  (final (Manager.updateVoiceStates
                            [state_fragment; server_fragment] manager_1))))
    = true
  ∧ trace (Manager.updateVoiceStates [server_fragment] manager_1) = []
  ∧ trace (Manager.updateVoiceStates [state_fragment] manager_1) = [].
Proof. repeat split. Qed.

Lemma key_in_op_None vs :
  VoiceState.op vs = None → Manager.has_required_keys vs = false.
Proof.
  intros H. destruct vs as [o gi ev si]. simpl in H. subst o.
  unfold Manager.has_required_keys, Manager.REQUIRED_KEYS, forallb, Manager.key_in.
  simpl. by rewrite !andb_false_r.
Qed.

(** Unfold the monad's operations and compute. *)
Ltac run_monad :=
  repeat (unfold mbind, M_bind, mret, M_ret, bind, ret, get_state, modify,
            tell, when, throw, Node_send; simpl).

(** What handling a state fragment does to the Player found: it never
    throws, it sends no voice update, it keeps [op] and [guildId] absent
    if they were, and without a channel it empties the record. *)
Lemma apply_voice_state_spec s player :
  ∃ p' tr,
    Manager.apply_voice_state s player = (Ok tt, p', tr)
    ∧ (∀ g, voice_dispatches g tr = 0%nat)
    ∧ (VoiceState.op (Player.voiceState player) = None →
       VoiceState.op (Player.voiceState p') = None)
    ∧ (VoiceState.guildId (Player.voiceState player) = None →
       VoiceState.guildId (Player.voiceState p') = None)
    ∧ (truthy (VoiceStateUpdate.channel_id s) = false →
       Player.voiceState p' = VoiceState.empty ∧ Player.voiceChannel p' = None).
Proof.
  unfold Manager.apply_voice_state.
  destruct (truthy (VoiceStateUpdate.channel_id s)).
  - unfold mbind, M_bind, bind, get_state, when. simpl.
    case_bool_decide; simpl; eexists _, _; (split; [reflexivity|]); done.
  - unfold Player.pause. run_monad.
    destruct (_ || _); run_monad; eexists _, _; (split; [reflexivity|]); done.
Qed.

(** One delivery keeps a reset credential record reset and dispatches
    nothing for its Session. *)
Lemma updateVoiceState_keeps_reset g d m :
  credentials_reset g m →
  result (Manager.updateVoiceState d m) = Ok tt
  ∧ credentials_reset g (final (Manager.updateVoiceState d m))
  ∧ voice_dispatches g (trace (Manager.updateVoiceState d m)) = 0%nat.
Proof.
  intros (p & Hp & Hop & Hgid).
  unfold Manager.updateVoiceState, result, final, trace, credentials_reset.
  destruct (Manager.update_of d) as [[s|s|]|];
    [| |by (repeat split; try done; exists p)..].
  - run_monad.
    destruct (Collection.get (VoiceServer.guild_id s) (Manager.players m))
      as [player|] eqn:Hplayer; simpl; [|by (repeat split; try done; exists p)].
    split; [done|]. split; [|done].
    destruct (String.eqb_spec (VoiceServer.guild_id s) g) as [Heq|Hne].
    + eexists. split; [rewrite Heq; apply get_set_eq|].
      rewrite Heq, Hp in Hplayer. injection Hplayer as <-. done.
    + exists p. split; [|done]. rewrite get_set_ne; done.
  - run_monad.
    destruct (Collection.get (VoiceStateUpdate.guild_id s) (Manager.players m))
      as [player|] eqn:Hplayer; simpl; [|by (repeat split; try done; exists p)].
    case_bool_decide as Huser; simpl; [|by (repeat split; try done; exists p)].
    unfold Manager.on_player.
    destruct (apply_voice_state_spec s player)
      as (p' & tr & -> & Htr & Hop' & Hgid' & _).
    destruct (String.eqb_spec (VoiceStateUpdate.guild_id s) g) as [Heq|Hne].
    + rewrite Heq, Hp in Hplayer. injection Hplayer as <-.
      rewrite (key_in_op_None _ (Hop' Hop)). simpl.
      split; [done|]. split.
      * exists p'. split; [rewrite Heq; apply get_set_eq|]. auto.
      * by rewrite app_nil_r.
    + destruct (Manager.has_required_keys _); simpl.
      * split; [done|]. split.
        -- exists p. split; [|done]. rewrite get_set_ne; done.
        -- rewrite voice_dispatches_app, Htr. unfold voice_dispatches. simpl.
           by destruct (String.eqb_spec (VoiceStateUpdate.guild_id s) g).
      * split; [done|]. split.
        -- exists p. split; [|done]. rewrite get_set_ne; done.
        -- by rewrite app_nil_r.
Qed.

Lemma updateVoiceStates_keep_reset g ds : ∀ m,
  credentials_reset g m →
  result (Manager.updateVoiceStates ds m) = Ok tt
  ∧ credentials_reset g (final (Manager.updateVoiceStates ds m))
  ∧ voice_dispatches g (trace (Manager.updateVoiceStates ds m)) = 0%nat.
Proof.
  induction ds as [|d ds IH]; intros m Hm; [done|].
  destruct (updateVoiceState_keeps_reset g d m Hm) as (Hr & Hm1 & Ht).
  unfold result, final, trace in *. simpl.
  unfold mbind, M_bind, bind.
  destruct (Manager.updateVoiceState d m) as [[r m1] t1]. simpl in *. subst r.
  destruct (IH m1 Hm1) as (Hr2 & Hm2 & Ht2).
  destruct (Manager.updateVoiceStates ds m1) as [[r2 m2] t2]. simpl in *.
  split; [done|]. split; [done|].
  rewrite voice_dispatches_app. lia.
Qed.

(** C10.  Let a state fragment without a channel id arrive for a
    registered Session, from the bot's own user.  [updateVoiceState]
    then leaves that Session with an empty credential record (no [op],
    no [guildId], nothing else) and no voice channel, and dispatches no
    voice update.  From then on, whatever fragments [updateVoiceState] is
    given, in whatever number and order, it returns normally, sends no
    merged voice update for that Session, and the record still lacks
    [op] and [guildId], so the required-keys check fails on it. *)
Theorem reset_credentials_never_dispatch m d s player :
  Manager.update_of d = Some (UState s) →
  let g := VoiceStateUpdate.guild_id s in
  Collection.get g (Manager.players m) = Some player →
  Manager.clientId (Manager.options m) = Some (VoiceStateUpdate.user_id s) →
  truthy (VoiceStateUpdate.channel_id s) = false →
  let m1 := final (Manager.updateVoiceState d m) in
  result (Manager.updateVoiceState d m) = Ok tt
  ∧ voice_dispatches g (trace (Manager.updateVoiceState d m)) = 0%nat
  ∧ (∃ p1, Manager.get g m1 = Some p1
           ∧ Player.voiceState p1 = VoiceState.empty
           ∧ Player.voiceChannel p1 = None)
  ∧ ∀ ds,
      result (Manager.updateVoiceStates ds m1) = Ok tt
      ∧ voice_dispatches g (trace (Manager.updateVoiceStates ds m1)) = 0%nat
      ∧ ∃ p2, Manager.get g (final (Manager.updateVoiceStates ds m1)) = Some p2
              ∧ VoiceState.op (Player.voiceState p2) = None
              ∧ VoiceState.guildId (Player.voiceState p2) = None
              ∧ Manager.has_required_keys (Player.voiceState p2) = false.
Proof.
  intros Hd g Hplayer Hclient Hchan m1.
  assert (result (Manager.updateVoiceState d m) = Ok tt
          ∧ voice_dispatches g (trace (Manager.updateVoiceState d m)) = 0%nat
          ∧ ∃ p1, Manager.get g m1 = Some p1
                  ∧ Player.voiceState p1 = VoiceState.empty
                  ∧ Player.voiceChannel p1 = None) as (Hr & Ht & p1 & Hp1 & Hvs & Hvc).
  { subst m1. unfold Manager.updateVoiceState, result, final, trace, Manager.get.
    rewrite Hd. run_monad. fold g. rewrite Hplayer, Hclient.
    rewrite bool_decide_eq_true_2 by done. simpl.
    unfold Manager.on_player.
    destruct (apply_voice_state_spec s player)
      as (p' & tr & -> & Htr & _ & _ & Hempty).
    destruct (Hempty Hchan) as [Hvs Hvc]. rewrite Hvs.
    change (Manager.has_required_keys VoiceState.empty) with false. simpl.
    split; [done|]. split; [by rewrite app_nil_r|].
    exists p'. split; [apply get_set_eq|done]. }
  split; [done|]. split; [done|]. split; [by exists p1|].
  intros ds.
  assert (credentials_reset g m1) as Hreset.
  { exists p1. rewrite Hvs. done. }
  destruct (updateVoiceStates_keep_reset g ds m1 Hreset) as (Hr2 & (p2 & Hp2 & Ho & Hg) & Ht2).
  split; [done|]. split; [done|].
  exists p2. split; [done|]. split; [done|]. split; [done|].
  by apply key_in_op_None.
Qed.

Lemma reset_credentials_never_dispatch_witness :
  let d := Bare (UState kicked_fragment) in
  let m1 := final (Manager.updateVoiceState d manager_1) in
  Manager.update_of d = Some (UState kicked_fragment)
  ∧ (∃ p1, Manager.get "123" m1 = Some p1
           ∧ Player.voiceState p1 = VoiceState.empty
           ∧ Player.voiceChannel p1 = None)
  ∧ voice_dispatches "123"
      (trace (Manager.updateVoiceStates
                [server_fragment; state_fragment; state_fragment; server_fragment] m1))
    = 0%nat.
Proof.
  intros d m1. split; [reflexivity|].
  destruct (reset_credentials_never_dispatch manager_1 d kicked_fragment player_123)
    as (_ & _ & H1 & Hds); [reflexivity..|].
  split; [exact H1|].
  apply (Hds [server_fragment; state_fragment; state_fragment; server_fragment]).
Defined.

(** * Further properties *)

(** ** Volume *)

(** X1.  [setVolume] never stores or sends a volume outside 0..1000: a
    negative volume becomes 0, one above 1000 becomes 1000, one within
    the range is kept; setting the stored volume again stores the same
    value.  Only [volume] changes, and one [volume] operation goes to
    the Session's Node.  A [NaN] volume throws, leaving the Session as it
    was and sending nothing. *)
Theorem setVolume_clamps p :
  (∀ q, ∃ c,
     Player.setVolume (Num q) p
     = (Ok tt, Player.set_volume (Some c) p,
        [NodeSend (Player.node p) (Player.guild p) (OpVolume (Player.guild p) c)])
     ∧ 0 <= c ∧ c <= 1000
     ∧ (q < 0 → c = 0) ∧ (1000 < q → c = 1000)
     ∧ (0 <= q → q <= 1000 → c == q)
     ∧ final (Player.setVolume (Num c) (Player.set_volume (Some c) p))
       = Player.set_volume (Some c) p)
  ∧ Player.setVolume NaN p = (Throw (TypeError "Volume must be a number."), p, []).
Proof.
  split; [|done]. intros q.
  destruct (clamp_cases q) as (H0 & H1 & Hneg & Hbig & Hin & Hidem).
  eexists. split; [reflexivity|].
  split; [done|]. split; [done|]. split; [done|]. split; [done|]. split; [done|].
  unfold final. simpl. by rewrite Hidem.
Qed.

(** ** Pause *)

(** X2.  [pause(b)] does nothing (no change, nothing sent) when the
    Session is already in the requested paused state or has neither a
    current nor an upcoming track; otherwise it sets [paused] to [b],
    [playing] to its opposite and sends one [pause] operation.  Calling
    it twice with the same flag is the same as calling it once. *)
Theorem pause_idempotent p b :
  (Player.paused p = b ∨ Queue.totalSize (Player.queue p) = 0%nat →
     Player.pause b p = (Ok tt, p, []))
  ∧ (Player.paused p ≠ b → Queue.totalSize (Player.queue p) ≠ 0%nat →
     Player.pause b p
     = (Ok tt, Player.set_playing_paused (negb b) b p,
        [NodeSend (Player.node p) (Player.guild p) (OpPause (Player.guild p) b)]))
  ∧ (Player.pause b;; Player.pause b) p = Player.pause b p.
Proof.
  assert (∀ p, Player.paused p = b ∨ Queue.totalSize (Player.queue p) = 0%nat →
               Player.pause b p = (Ok tt, p, [])) as Hnoop.
  { intros p0 H. unfold Player.pause. run_monad.
    destruct H as [-> | ->]; [|by rewrite orb_true_r].
    by rewrite eqb_reflx. }
  assert (∀ p, Player.paused p ≠ b → Queue.totalSize (Player.queue p) ≠ 0%nat →
     Player.pause b p
     = (Ok tt, Player.set_playing_paused (negb b) b p,
        [NodeSend (Player.node p) (Player.guild p) (OpPause (Player.guild p) b)]))
    as Hact.
  { intros p0 Hp Hq. unfold Player.pause. run_monad.
    destruct (Nat.eqb_spec (Queue.totalSize (Player.queue p0)) 0); [done|].
    destruct (Bool.eqb_spec (Player.paused p0) b); done. }
  split; [apply Hnoop|]. split; [apply Hact|].
  unfold mbind at 1, M_bind at 1, bind.
  destruct (decide (Player.paused p = b)) as [Hp|Hp].
  { rewrite !Hnoop by (by left). done. }
  destruct (decide (Queue.totalSize (Player.queue p) = 0%nat)) as [Hq|Hq].
  { rewrite !Hnoop by (by right). done. }
  rewrite Hact by done. rewrite Hnoop by (by left). done.
Qed.

Lemma pause_idempotent_witness :
  Player.pause true player_123 = (Ok tt, player_123, [])
  ∧ Player.pause true player_playing
    = (Ok tt, Player.set_playing_paused false true player_playing,
       [NodeSend "A" "123" (OpPause "123" true)]).
Proof.
  split.
  - apply (proj1 (pause_idempotent player_123 true)). right. reflexivity.
  - apply (proj1 (proj2 (pause_idempotent player_playing true)));
      [discriminate | vm_compute; lia].
Defined.

Lemma setVolume_clamps_witness :
  final (Player.setVolume (Num (-5)) player_123) = Player.set_volume (Some 0) player_123
  ∧ final (Player.setVolume (Num 5000) player_123)
    = Player.set_volume (Some 1000) player_123.
Proof.
  split.
  - destruct (proj1 (setVolume_clamps player_123) (-5)) as (c & -> & _ & _ & Hneg & _).
    rewrite Hneg; reflexivity.
  - destruct (proj1 (setVolume_clamps player_123) 5000) as (c & -> & _ & _ & _ & Hbig & _).
    rewrite Hbig; reflexivity.
Defined.

(** ** Play *)

Lemma node_sends_app t1 t2 : node_sends (t1 ++ t2) = node_sends t1 ++ node_sends t2.
Proof. apply List.filter_app. Qed.

(** One round of [play], by the cases of its [current] track. *)
Lemma play_unfold resolve fuel arg opts p :
  let p1 := play_entered arg p in
  Player.play resolve (S fuel) arg opts p
  = match Queue.current (Player.queue p1) with
    | None => (Throw (RangeError "No current track."), p1, [])
    | Some (Resolved tr) =>
        (Ok (Some tt), p1,
         [NodeSend (Player.node p) (Player.guild p)
            (OpPlay (Player.guild p) (Track.track tr)
               (Player.finalOptions arg opts))])
    | Some (Unresolved u) =>
        match resolve u with
        | Some tr =>
            (Ok (Some tt),
             Player.set_queue
               {| Queue.items := Queue.items (Player.queue p);
                  Queue.current := Some (Resolved tr);
                  Queue.previous := Queue.previous (Player.queue p1) |} p,
             [NodeSend (Player.node p) (Player.guild p)
                (OpPlay (Player.guild p) (Track.track tr)
                   (Player.finalOptions arg opts))])
        | None =>
            match head (Queue.items (Player.queue p)) with
            | Some e =>
                let '(r, p', tr) :=
                  Player.play resolve fuel (Some (ArgTrack e)) None p1 in
                (r, p', Emit (trackError (Player.guild p) u) :: tr)
            | None => (Ok (Some tt), p1, [Emit (trackError (Player.guild p) u)])
            end
        end
    end.
Proof.
  unfold play_entered. simpl. run_monad.
  destruct arg as [[e|o]|]; simpl;
    repeat (case_match; simplify_eq/=; try done); by destruct p.
Qed.

Lemma play_entered_frame arg p :
  play_entered arg p = Player.set_queue (Player.queue (play_entered arg p)) p
  ∧ Queue.items (Player.queue (play_entered arg p)) = Queue.items (Player.queue p).
Proof. destruct arg as [[e|o]|]; simpl; split; try done; by destruct p. Qed.

(** X3.  Whatever its arguments, [play] changes nothing of the Session
    but the [current] and [previous] slots of its queue (the upcoming
    entries stay, also the one it falls back to), and it hands the Node
    at most one operation: a [play] for the Session's guild, sent to the
    Session's Node, carrying the handle of the resolved track that is
    then [current]; when it does, it has completed normally. *)
Theorem play_sends_at_most_once resolve fuel : ∀ arg opts p,
  let '(r, p', tr) := Player.play resolve fuel arg opts p in
  p' = Player.set_queue (Player.queue p') p
  ∧ Queue.items (Player.queue p') = Queue.items (Player.queue p)
  ∧ (node_sends tr = []
     ∨ ∃ t o,
         node_sends tr
         = [NodeSend (Player.node p) (Player.guild p)
              (OpPlay (Player.guild p) (Track.track t) o)]
         ∧ r = Ok (Some tt)
         ∧ Queue.current (Player.queue p') = Some (Resolved t)).
Proof.
  induction fuel as [|fuel IH]; intros arg opts p.
  { simpl. split; [by destruct p|]. split; [done|]. by left. }
  rewrite play_unfold.
  destruct (play_entered_frame arg p) as [Hp1 Hi1].
  set (p1 := play_entered arg p) in *.
  assert (Player.node p1 = Player.node p ∧ Player.guild p1 = Player.guild p) as [Hn Hg].
  { rewrite Hp1. done. }
  destruct (Queue.current (Player.queue p1)) as [[tr|u]|] eqn:Hcur.
  - split; [done|]. split; [done|]. right. by exists tr, (Player.finalOptions arg opts).
  - destruct (resolve u) as [tr|].
    + split; [by destruct p|]. split; [done|].
      right. by exists tr, (Player.finalOptions arg opts).
    + destruct (head (Queue.items (Player.queue p))) as [e|].
      * specialize (IH (Some (ArgTrack e)) None p1).
        destruct (Player.play resolve fuel (Some (ArgTrack e)) None p1) as [[r p'] tr].
        destruct IH as (Hp' & Hi' & Hs).
        split; [rewrite Hp', Hp1; by destruct p|].
        split; [by rewrite Hi'|].
        unfold node_sends. simpl. fold (node_sends tr).
        rewrite <- Hn, <- Hg. done.
      * split; [done|]. split; [done|]. by left.
  - split; [done|]. split; [done|]. by left.
Qed.

(** X4.  Let resolution fail for the track given to [play] and for the
    track heading the queue, itself unresolved.  Then [play] never
    completes: each round emits [trackError] and starts over with the
    head of the queue, which stays where it is.  However many rounds are
    allowed, the bound is reached, nothing has been sent to the Node and
    one [trackError] per round has been emitted. *)
Theorem play_retries_forever resolve u0 fuel : ∀ u p,
  resolve u = None → resolve u0 = None →
  head (Queue.items (Player.queue p)) = Some (Unresolved u0) →
  let '(r, _, tr) := Player.play resolve fuel (Some (ArgTrack (Unresolved u))) None p in
  r = Ok None ∧ node_sends tr = [] ∧ length tr = fuel.
Proof.
  intros u p Hu Hu0. revert u p Hu.
  induction fuel as [|fuel IH]; intros u p Hu Hhead; [done|].
  rewrite play_unfold. simpl. rewrite Hu, Hhead.
  specialize (IH u0
    (play_entered (Some (ArgTrack (Unresolved u))) p) Hu0 Hhead).
  simpl in IH.
  destruct (Player.play resolve fuel _ None _) as [[r p'] tr].
  destruct IH as (-> & Hs & Hl). split; [done|]. split; [done|].
  simpl. by rewrite Hl.
Qed.

Lemma play_retries_forever_witness :
  let '(r, _, tr) :=
    Player.play resolve_nothing 7 (Some (ArgTrack (Unresolved unresolved_1))) None
      player_unresolved in
  r = Ok None ∧ node_sends tr = [] ∧ length tr = 7%nat.
Proof.
  apply (play_retries_forever resolve_nothing unresolved_1 7 unresolved_1
           player_unresolved); reflexivity.
Defined.

(** X5.  When the track given to [play] cannot be resolved, [play]
    emits [trackError] and sends no [play] operation for it.  With no
    upcoming entry it then completes, the unresolved track staying
    [current].  With a resolved track heading the queue it plays that
    one instead: the track becomes [current] (the failed one becomes
    [previous]), one [play] operation with its handle and without options
    is sent, and the track is still the head of the queue. *)
Theorem play_falls_back_to_queue resolve u opts p :
  resolve u = None →
  (Queue.items (Player.queue p) = [] →
   ∀ fuel, ∃ p',
     Player.play resolve (S fuel) (Some (ArgTrack (Unresolved u))) opts p
     = (Ok (Some tt), p', [Emit (trackError (Player.guild p) u)])
     ∧ Queue.current (Player.queue p') = Some (Unresolved u))
  ∧ (∀ t rest, Queue.items (Player.queue p) = Resolved t :: rest →
     ∀ fuel, ∃ p',
       Player.play resolve (S (S fuel)) (Some (ArgTrack (Unresolved u))) opts p
       = (Ok (Some tt), p',
          [Emit (trackError (Player.guild p) u);
           NodeSend (Player.node p) (Player.guild p)
             (OpPlay (Player.guild p) (Track.track t) PlayOptions.none)])
       ∧ Queue.current (Player.queue p') = Some (Resolved t)
       ∧ Queue.previous (Player.queue p') = Some (Unresolved u)
       ∧ Queue.items (Player.queue p') = Resolved t :: rest).
Proof.
  intros Hu. split.
  - intros Hitems fuel. rewrite play_unfold. simpl. rewrite Hu, Hitems. simpl.
    eexists. split; [reflexivity|done].
  - intros t rest Hitems fuel. rewrite play_unfold. cbv zeta.
    change (Queue.current
              (Player.queue (play_entered (Some (ArgTrack (Unresolved u))) p)))
      with (Some (Unresolved u)).
    cbv beta iota. rewrite Hu, Hitems. cbn [head]. rewrite play_resolved.
    eexists. split; [reflexivity|]. simpl. done.
Qed.

Lemma play_falls_back_to_queue_witness :
  ∃ p', Player.play resolve_nothing 2 (Some (ArgTrack (Unresolved unresolved_1))) None
          player_queued
        = (Ok (Some tt), p',
           [Emit (trackError "123" unresolved_1);
            NodeSend "A" "123" (OpPlay "123" (Track.track track_1) PlayOptions.none)])
    ∧ Queue.current (Player.queue p') = Some (Resolved track_1)
    ∧ Queue.previous (Player.queue p') = Some (Unresolved unresolved_1)
    ∧ Queue.items (Player.queue p')
      = [Resolved track_1; Resolved track_2; Resolved track_3].
Proof.
  apply (proj2 (play_falls_back_to_queue resolve_nothing unresolved_1 None
                  player_queued eq_refl) track_1
           [Resolved track_2; Resolved track_3]).
  reflexivity.
Defined.

(** ** Selection queries *)

Section SortFacts.
Context {V : Type} (le0 : V → V → bool).
Implicit Types (c : list (string * V)) (x : string * V).




End SortFacts.


(** X7.  [search] finds no Node, and rejects with "No available nodes",
    exactly when no registered Node is connected; otherwise the Node it
    sends its request to is a registered, connected one. *)
Theorem search_node_available m :
  (Manager.search_node m = Throw (Error "No available nodes")
   ↔ ∀ k n, (k, n) ∈ Manager.nodes m → Node.connected n = false)
  ∧ ∀ k n, Manager.search_node m = Ok (k, n) →
      (k, n) ∈ Manager.nodes m ∧ Node.connected n = true.
Proof.
  unfold Manager.search_node.
  pose proof (first_sort_filter (λ a b, (Node.calls b - Node.calls a <=? 0)%Z)
                Node.connected (Manager.nodes m)) as Hf.
  fold (Manager.leastUsedNode m) in Hf.
  destruct (Collection.first (Manager.leastUsedNode m)) as [[k0 n0]|].
  - destruct Hf as [Hin Hc]. split.
    + split; [done|]. intros H. simpl in Hc. rewrite (H k0 n0 Hin) in Hc. done.
    + intros k n [= <- <-]. done.
  - split; [|done]. split; [|done]. intros _ k n Hin. apply (Hf (k, n) Hin).
Qed.



(** Loads that agree in binary64 tie, and the order of registration
    stays: A before B, though B's load is the smaller fraction. *)
Example leastLoadNodes_tie :
  Manager.load (Node.mk "A" true 0 (Some (Node.mkCpu 1 3)))
  = Manager.load (Node.mk "B" true 0 (Some (Node.mkCpu 0x1.5555555555555p-2 1)))
  ∧ keys (Manager.leastLoadNodes manager_tied) = ["A"; "B"].
Proof. split; reflexivity. Qed.

(** ** Creating a Session: the other outcomes *)

Lemma check_valid o : Player.check o = Ok tt ↔ valid_options o.
Proof.
  unfold Player.check, valid_options.
  destruct (digits_only (PlayerOptions.guild o)); simpl; [|split; [done|]; intros []; done].
  assert (∀ c : option string,
            truthy c && negb (digits_only (default "" c)) = false
            ↔ ∀ s, c = Some s → s ≠ "" → digits_only s = true) as Hchan.
  { intros [s|]; simpl; [|by split].
    destruct (String.eqb_spec s ""); simpl.
    - split; [|done]. intros _ s' [= <-]. done.
    - destruct (digits_only s) eqn:E; simpl; split; try done.
      + by intros _ s' [= <-].
      + intros H. rewrite (H s) in E; done. }
  destruct (truthy (PlayerOptions.textChannel o) && _) eqn:Et.
  { split; [done|]. intros (_ & Ht & _). apply Hchan in Ht. congruence. }
  destruct (truthy (PlayerOptions.voiceChannel o) && _) eqn:Ev.
  { split; [done|]. intros (_ & _ & Hv). apply Hchan in Hv. congruence. }
  split; [|done]. intros _. split; [done|]. split; by apply Hchan.
Qed.

Lemma create_existing_registered m o existing :
  Collection.get (PlayerOptions.guild o) (Manager.players m) = Some existing →
  Manager.create o m = (Ok existing, m, []).
Proof.
  intros H. unfold Manager.create, mbind, M_bind, bind, get_state. simpl. by rewrite H.
Qed.

(** X8.  When the options name a registered Node, the new Session is
    assigned that Node, whether it is connected or not and whatever other
    Nodes there are. *)
Theorem create_on_named_node m o k n :
  let g := PlayerOptions.guild o in
  Collection.get g (Manager.players m) = None →
  valid_options o →
  PlayerOptions.node o = Some k →
  Collection.get k (Manager.nodes m) = Some n →
  PlayerOptions.volume o ≠ Some NaN →
  ∃ p m' tr,
    Manager.create o m = (Ok p, m', tr)
    ∧ Player.node p = k
    ∧ Manager.get g m' = Some p
    ∧ node_sends tr
      = [NodeSend k g (OpVolume g (default 0 (Player.volume p)));
         NodeSend k g (OpEqualizer g (Player.equalizer_bands initial_bands))].
Proof.
  intros g Hget Hvalid Hnode Hk Hvol.
  rewrite (create_fresh m o Hget), (new_Player_fresh m o Hget). fold g.
  apply check_valid in Hvalid. rewrite Hvalid.
  unfold Manager.assign_node. rewrite Hnode. simpl. rewrite Hk. simpl.
  assert (∃ v, default (Num 100) (PlayerOptions.volume o) = Num v) as [v Hv].
  { destruct (PlayerOptions.volume o) as [[|v]|]; [done| |]; by eexists. }
  rewrite Hv. eexists _, _, _. split; [reflexivity|].
  split; [done|]. split; [apply get_set_eq|]. done.
Qed.

Lemma create_on_named_node_witness :
  Node.connected <$> Collection.get "B" (Manager.nodes manager_offline) = Some false
  ∧ ∃ p m' tr,
      Manager.create options_on_B manager_offline = (Ok p, m', tr)
      ∧ Player.node p = "B"
      ∧ Manager.get "123" m' = Some p
      ∧ node_sends tr
        = [NodeSend "B" "123" (OpVolume "123" (default 0 (Player.volume p)));
           NodeSend "B" "123" (OpEqualizer "123" (Player.equalizer_bands initial_bands))].
Proof.
  split; [reflexivity|].
  apply (create_on_named_node manager_offline options_on_B "B"
           (Node.mk "B" false 5 None)).
  - reflexivity.
  - apply check_valid. reflexivity.
  - reflexivity.
  - reflexivity.
  - discriminate.
Defined.

(** X9.  A volume that is not a number makes the construction throw,
    but only after the Session has been registered and [playerCreate]
    emitted: the Manager keeps a Session without volume and with a flat
    equalizer, to which nothing was sent, and a later [create] for the
    guild returns that Session as it is. *)
Theorem create_nan_volume_leaves_session m o k n :
  let g := PlayerOptions.guild o in
  Collection.get g (Manager.players m) = None →
  valid_options o →
  Manager.assign_node o m = Some (k, n) →
  PlayerOptions.volume o = Some NaN →
  ∃ p m',
    Manager.create o m
    = (Throw (TypeError "Volume must be a number."), m', [Emit (playerCreate g)])
    ∧ Manager.get g m' = Some p
    ∧ Player.node p = k
    ∧ Player.volume p = None
    ∧ Player.bands p = replicate 15 (Some 0)
    ∧ Manager.create o m' = (Ok p, m', []).
Proof.
  intros g Hget Hvalid Hassign Hvol.
  rewrite (create_fresh m o Hget), (new_Player_fresh m o Hget). fold g.
  apply check_valid in Hvalid. rewrite Hvalid, Hassign, Hvol. simpl.
  eexists _, _. split; [reflexivity|].
  assert (Collection.get g
            (Collection.set g (Manager.fields o k) (Manager.players m))
          = Some (Manager.fields o k)) as Hreg by apply get_set_eq.
  split; [exact Hreg|]. split; [done|]. split; [done|]. split; [done|].
  apply create_existing_registered. exact Hreg.
Qed.

Lemma create_nan_volume_leaves_session_witness :
  ∃ p m',
    Manager.create options_nan manager_0
    = (Throw (TypeError "Volume must be a number."), m', [Emit (playerCreate "123")])
    ∧ Manager.get "123" m' = Some p
    ∧ Player.node p = "A"
    ∧ Player.volume p = None
    ∧ Player.bands p = replicate 15 (Some 0)
    ∧ Manager.create options_nan m' = (Ok p, m', []).
Proof.
  apply (create_nan_volume_leaves_session manager_0 options_nan "A" node_A).
  - reflexivity.
  - apply check_valid. reflexivity.
  - reflexivity.
  - reflexivity.
Defined.

Lemma check_throws_TypeError o e :
  Player.check o = Throw e → ∃ msg, e = TypeError msg.
Proof.
  unfold Player.check. repeat case_match; intros [= <-]; by eexists.
Qed.

(** X10.  Options that fail [check] (a guild id that is not a string of
    digits, or a given, non-empty text or voice channel id that is not)
    make [create] for an unregistered guild throw a [TypeError] before
    anything else happens: no Session is registered, nothing is emitted
    or sent, and no Node is looked for. *)
Theorem create_rejects_invalid_options m o :
  Collection.get (PlayerOptions.guild o) (Manager.players m) = None →
  ¬ valid_options o →
  ∃ msg, Manager.create o m = (Throw (TypeError msg), m, []).
Proof.
  intros Hget Hbad.
  rewrite (create_fresh m o Hget), (new_Player_fresh m o Hget).
  destruct (Player.check o) as [[]|e] eqn:Hcheck.
  - exfalso. by apply Hbad, check_valid.
  - destruct (check_throws_TypeError o e Hcheck) as [msg ->]. by exists msg.
Qed.

Lemma create_rejects_invalid_options_witness :
  ∃ msg, Manager.create options_bad_guild manager_0 = (Throw (TypeError msg), manager_0, []).
Proof.
  apply (create_rejects_invalid_options manager_0 options_bad_guild).
  - reflexivity.
  - intros [H _]. vm_compute in H. discriminate H.
Defined.

(** ** The registry of Sessions *)

Section RegistryFacts.
Context {V : Type}.
Implicit Types (c : list (string * V)) (k : string) (v : V).

Lemma get_Some_elem c k v : Collection.get k c = Some v → (k, v) ∈ c.
Proof.
  induction c as [|[k0 v0] c IH]; simpl; [done|].
  destruct (String.eqb_spec k0 k) as [->|Hne].
  - intros [= ->]. apply elem_of_cons. by left.
  - intros H. apply elem_of_cons. right. by apply IH.
Qed.

Lemma get_None_keys c k : Collection.get k c = None ↔ k ∉ keys c.
Proof.
  unfold keys. induction c as [|[k0 v0] c IH]; simpl.
  - split; [|done]. intros _ H. by apply elem_of_nil in H.
  - rewrite not_elem_of_cons. destruct (String.eqb_spec k0 k) as [->|Hne].
    + split; [done|]. intros [H _]. done.
    + rewrite IH. split; [|tauto]. intros H. split; [congruence|done].
Qed.

Lemma elem_get c k v : NoDup (keys c) → (k, v) ∈ c → Collection.get k c = Some v.
Proof.
  unfold keys. induction c as [|[k0 v0] c IH]; simpl; intros Hnd Hin.
  - by apply elem_of_nil in Hin.
  - apply NoDup_cons in Hnd as [Hk0 Hnd].
    apply elem_of_cons in Hin as [[= <- <-] | Hin].
    + by rewrite String.eqb_refl.
    + destruct (String.eqb_spec k0 k) as [->|Hne]; [|by apply IH].
      exfalso. apply Hk0. apply list_elem_of_fmap. by exists (k, v).
Qed.

Lemma keys_set_existing c k v v0 :
  Collection.get k c = Some v0 → keys (Collection.set k v c) = keys c.
Proof.
  unfold keys. induction c as [|[k0 v1] c IH]; simpl; [done|].
  destruct (String.eqb_spec k0 k) as [->|Hne]; simpl; [done|].
  intros H. f_equal. by apply IH.
Qed.

Lemma keys_set_new c k v :
  Collection.get k c = None → keys (Collection.set k v c) = keys c ++ [k].
Proof.
  unfold keys. induction c as [|[k0 v1] c IH]; simpl; [done|].
  destruct (String.eqb_spec k0 k) as [->|Hne]; simpl; [done|].
  intros H. f_equal. by apply IH.
Qed.

Lemma NoDup_keys_set c k v : NoDup (keys c) → NoDup (keys (Collection.set k v c)).
Proof.
  intros Hnd. destruct (Collection.get k c) as [v0|] eqn:Hget.
  - by rewrite (keys_set_existing c k v v0).
  - rewrite keys_set_new by done. apply NoDup_app. split; [done|].
    split; [|apply NoDup_singleton].
    intros x Hx Hk. apply list_elem_of_singleton in Hk. subst x.
    by apply get_None_keys in Hget.
Qed.

Lemma elem_of_set c k v x :
  x ∈ Collection.set k v c → x = (k, v) ∨ x ∈ c.
Proof.
  induction c as [|[k0 v0] c IH]; simpl.
  - intros H. apply list_elem_of_singleton in H. by left.
  - destruct (String.eqb_spec k0 k) as [->|Hne]; intros H;
      apply elem_of_cons in H as [-> | H].
    + by left.
    + right. apply elem_of_cons. by right.
    + right. apply elem_of_cons. by left.
    + destruct (IH H) as [-> | Hin]; [by left|].
      right. apply elem_of_cons. by right.
Qed.

Lemma elem_of_delete c k x : x ∈ Collection.delete k c → x ∈ c.
Proof.
  induction c as [|[k0 v0] c IH]; simpl; [done|].
  destruct (String.eqb_spec k0 k) as [->|Hne]; intros H.
  - apply elem_of_cons. by right.
  - apply elem_of_cons in H as [-> | H]; apply elem_of_cons; [by left|].
    right. by apply IH.
Qed.

Lemma keys_delete_sub c k x : x ∈ keys (Collection.delete k c) → x ∈ keys c.
Proof.
  unfold keys. intros H. apply list_elem_of_fmap in H as (y & -> & Hy).
  apply list_elem_of_fmap. exists y. split; [done|]. by eapply elem_of_delete.
Qed.

Lemma NoDup_keys_delete c k : NoDup (keys c) → NoDup (keys (Collection.delete k c)).
Proof.
  unfold keys. induction c as [|[k0 v0] c IH]; simpl; [done|].
  intros Hnd. apply NoDup_cons in Hnd as [Hk0 Hnd].
  destruct (String.eqb_spec k0 k) as [->|Hne]; [done|].
  simpl. apply NoDup_cons. split; [|by apply IH].
  intros H. apply Hk0. by apply (keys_delete_sub c k).
Qed.

Lemma get_delete_eq c k : NoDup (keys c) → Collection.get k (Collection.delete k c) = None.
Proof.
  unfold keys. induction c as [|[k0 v0] c IH]; simpl; [done|].
  intros Hnd. apply NoDup_cons in Hnd as [Hk0 Hnd].
  destruct (String.eqb_spec k0 k) as [->|Hne].
  - by apply get_None_keys.
  - simpl. destruct (String.eqb_spec k0 k); [done|]. by apply IH.
Qed.

Lemma get_delete_ne c k k' :
  k ≠ k' → Collection.get k' (Collection.delete k c) = Collection.get k' c.
Proof.
  intros Hne. induction c as [|[k0 v0] c IH]; simpl; [done|].
  destruct (String.eqb_spec k0 k) as [->|Hk]; simpl.
  - by destruct (String.eqb_spec k k').
  - destruct (String.eqb_spec k0 k'); [done|apply IH].
Qed.
End RegistryFacts.

(** ** Voice updates: what they touch *)

Lemma apply_voice_state_frame s player :
  ∃ p' tr,
    Manager.apply_voice_state s player = (Ok tt, p', tr)
    ∧ Player.guild p' = Player.guild player
    ∧ Player.node p' = Player.node player
    ∧ ∀ g, credentials_of g (Player.voiceState player) →
           credentials_of g (Player.voiceState p').
Proof.
  unfold Manager.apply_voice_state.
  destruct (truthy (VoiceStateUpdate.channel_id s)).
  - run_monad. case_bool_decide; simpl; eexists _, _; (split; [reflexivity|]); done.
  - unfold Player.pause. run_monad.
    destruct (_ || _); run_monad; eexists _, _; (split; [reflexivity|]);
      (split; [done|]); (split; [done|]); intros g _; by right.
Qed.

(** Every delivery returns normally and either leaves the Manager as it
    is or rewrites one registered Session in place. *)
Lemma updateVoiceState_shape d m :
  ∃ m' tr,
    Manager.updateVoiceState d m = (Ok tt, m', tr)
    ∧ (m' = m
       ∨ ∃ g player p',
           Collection.get g (Manager.players m) = Some player
           ∧ m' = Manager.set_players (Collection.set g p' (Manager.players m)) m
           ∧ Player.guild p' = Player.guild player
           ∧ Player.node p' = Player.node player
           ∧ ∀ g0, credentials_of g0 (Player.voiceState player) →
                   credentials_of g0 (Player.voiceState p')).
Proof.
  unfold Manager.updateVoiceState.
  destruct (Manager.update_of d) as [[s|s|]|];
    [| |by (eexists _, _; split; [reflexivity|by left])..].
  - run_monad.
    destruct (Collection.get (VoiceServer.guild_id s) (Manager.players m))
      as [player|] eqn:Hplayer; simpl;
      [|by (eexists _, _; split; [reflexivity|by left])].
    eexists _, _. split; [reflexivity|]. right.
    eexists _, player, _. split; [exact Hplayer|]. split; [reflexivity|]. done.
  - run_monad.
    destruct (Collection.get (VoiceStateUpdate.guild_id s) (Manager.players m))
      as [player|] eqn:Hplayer; simpl;
      [|by (eexists _, _; split; [reflexivity|by left])].
    case_bool_decide as Huser; simpl;
      [|by (eexists _, _; split; [reflexivity|by left])].
    unfold Manager.on_player.
    destruct (apply_voice_state_frame s player) as (p' & tr & -> & Hg & Hn & Hc).
    destruct (Manager.has_required_keys _); simpl;
      (eexists _, _; split; [reflexivity|]; right;
       eexists _, player, p'; split; [exact Hplayer|]; split; [reflexivity|]; done).
Qed.

(** X11.  [updateVoiceState] never throws and never adds, removes or
    reorders Sessions or Nodes: the guilds registered, the Nodes and the
    options are afterwards what they were, and if a Session was changed
    it is still on the same Node and under the same guild. *)
Theorem updateVoiceState_frame d m :
  let m' := final (Manager.updateVoiceState d m) in
  result (Manager.updateVoiceState d m) = Ok tt
  ∧ keys (Manager.players m') = keys (Manager.players m)
  ∧ Manager.nodes m' = Manager.nodes m
  ∧ Manager.options m' = Manager.options m
  ∧ ∀ g p', Manager.get g m' = Some p' →
      ∃ p, Manager.get g m = Some p
           ∧ Player.guild p' = Player.guild p ∧ Player.node p' = Player.node p.
Proof.
  destruct (updateVoiceState_shape d m) as (m' & tr & Hrun & Hshape).
  rewrite Hrun. unfold result, final. simpl.
  split; [done|].
  destruct Hshape as [-> | (g & player & p' & Hget & -> & Hg & Hn & _)].
  { split; [done|]. split; [done|]. split; [done|]. intros g p' H. by exists p'. }
  simpl. split; [by eapply keys_set_existing|]. split; [done|]. split; [done|].
  intros g0 p0. unfold Manager.get. simpl.
  destruct (decide (g = g0)) as [<-|Hne].
  - rewrite get_set_eq. intros [= <-]. by exists player.
  - rewrite get_set_ne by done. intros H. by exists p0.
Qed.



(** ** One Session per guild *)

Lemma registry_ok_set m g p :
  registry_ok m → Player.guild p = g → credentials_of g (Player.voiceState p) →
  registry_ok (Manager.set_players (Collection.set g p (Manager.players m)) m).
Proof.
  intros [Hnd Hall] Hg Hc. split; simpl.
  - by apply NoDup_keys_set.
  - intros g0 p0 Hin. apply elem_of_set in Hin as [[= -> ->] | Hin]; [done|].
    by apply Hall.
Qed.

Lemma registry_ok_create o m : registry_ok m → registry_ok (final (Manager.create o m)).
Proof.
  intros Hok.
  destruct (Collection.get (PlayerOptions.guild o) (Manager.players m))
    as [existing|] eqn:Hget.
  { by rewrite (create_existing_registered m o existing Hget). }
  rewrite (create_fresh m o Hget), (new_Player_fresh m o Hget).
  destruct (Player.check o); [|done].
  destruct (Manager.assign_node o m) as [[node n]|]; [|done].
  destruct (default (Num 100) (PlayerOptions.volume o)) as [|v]; unfold final; simpl.
  - apply registry_ok_set; [done|done|]. by left.
  - apply registry_ok_set; [done|done|]. by left.
Qed.

Lemma registry_ok_updateVoiceState d m :
  registry_ok m → registry_ok (final (Manager.updateVoiceState d m)).
Proof.
  intros Hok.
  destruct (updateVoiceState_shape d m) as (m' & tr & -> & Hshape).
  unfold final. simpl.
  destruct Hshape as [-> | (g & player & p' & Hget & -> & Hg & _ & Hc)]; [done|].
  apply get_Some_elem in Hget. destruct (proj2 Hok g player Hget) as [Hgp Hcp].
  apply registry_ok_set; [done|congruence|by apply Hc].
Qed.

Lemma registry_ok_destroy g m :
  registry_ok m → registry_ok (final (Manager.destroy g m)).
Proof.
  intros [Hnd Hall]. unfold final, Manager.destroy, modify. simpl. split; simpl.
  - by apply NoDup_keys_delete.
  - intros g0 p0 Hin. apply Hall. by eapply elem_of_delete.
Qed.

(** X13.  From a Manager without Sessions, whatever sequence of
    [create], [updateVoiceState] and [destroy] calls is made (also those
    that throw), the registry holds at most one Session per guild, every
    Session is registered under its own guild id, and its credential
    record either names that guild with [op] "voiceUpdate" or has lost
    both keys. *)
Theorem registry_stays_consistent l m :
  Manager.players m = [] →
  let m' := acts l m in
  NoDup (keys (Manager.players m'))
  ∧ ∀ g p, Manager.get g m' = Some p →
      Player.guild p = g
      ∧ ((VoiceState.op (Player.voiceState p) = Some "voiceUpdate"
          ∧ VoiceState.guildId (Player.voiceState p) = Some g)
         ∨ (VoiceState.op (Player.voiceState p) = None
            ∧ VoiceState.guildId (Player.voiceState p) = None)).
Proof.
  intros Hempty m'.
  assert (registry_ok m') as [Hnd Hall].
  { subst m'. assert (registry_ok m) as Hok.
    { split; rewrite Hempty; [constructor|]. intros g p H. by apply elem_of_nil in H. }
    clear Hempty. revert m Hok.
    induction l as [|a l IH]; intros m Hok; [done|].
    simpl. apply IH. destruct a; simpl.
    - by apply registry_ok_create.
    - by apply registry_ok_updateVoiceState.
    - by apply registry_ok_destroy. }
  split; [done|]. intros g p Hget. apply Hall. by apply get_Some_elem.
Qed.

Lemma registry_stays_consistent_witness :
  let m' := acts [DoCreate options_123; DoUpdateVoiceState state_fragment;
                  DoCreate options_nan; DoDestroy "7";
                  DoUpdateVoiceState (Bare (UState kicked_fragment))] manager_0 in
  keys (Manager.players m') = ["123"]
  ∧ NoDup (keys (Manager.players m'))
  ∧ ∀ g p, Manager.get g m' = Some p →
      Player.guild p = g
      ∧ ((VoiceState.op (Player.voiceState p) = Some "voiceUpdate"
          ∧ VoiceState.guildId (Player.voiceState p) = Some g)
         ∨ (VoiceState.op (Player.voiceState p) = None
            ∧ VoiceState.guildId (Player.voiceState p) = None)).
Proof.
  intros m'. split; [reflexivity|].
  apply (registry_stays_consistent _ manager_0). reflexivity.
Defined.

(** X14.  In a registry with one entry per guild, [destroy(guild)]
    removes the Session of that guild and no other: looking the guild up
    afterwards finds nothing, every other guild's Session is found as
    before, and a following [create] for the guild constructs a new
    Session, sending volume and equalizer again. *)
Theorem destroy_then_get g m :
  NoDup (keys (Manager.players m)) →
  let m' := final (Manager.destroy g m) in
  Manager.destroy g m = (Ok tt, m', [])
  ∧ Manager.get g m' = None
  ∧ (∀ g', g' ≠ g → Manager.get g' m' = Manager.get g' m)
  ∧ Manager.nodes m' = Manager.nodes m
  ∧ ∀ o k n v,
      PlayerOptions.guild o = g → valid_options o →
      Manager.assign_node o m = Some (k, n) →
      default (Num 100) (PlayerOptions.volume o) = Num v →
      ∃ m'', Manager.create o m'
             = (Ok (constructed o k v), m'', construction_trace g k v)
             ∧ Manager.get g m'' = Some (constructed o k v).
Proof.
  intros Hnd m'. subst m'. unfold Manager.destroy, modify, final, Manager.get. simpl.
  split; [done|]. split; [by apply get_delete_eq|].
  split; [intros g' Hne; by apply get_delete_ne|]. split; [done|].
  intros o k n v <- Hvalid Hassign Hv.
  assert (Collection.get (PlayerOptions.guild o)
            (Manager.players
               (Manager.set_players
                  (Collection.delete (PlayerOptions.guild o) (Manager.players m)) m))
          = None) as Hget by (by apply get_delete_eq).
  rewrite (create_fresh _ o Hget), (new_Player_fresh _ o Hget).
  apply check_valid in Hvalid. rewrite Hvalid.
  change (Manager.assign_node o (Manager.set_players _ m)) with (Manager.assign_node o m).
  rewrite Hassign, Hv. eexists. split; [reflexivity|]. simpl. apply get_set_eq.
Qed.

Lemma destroy_then_get_witness :
  let m' := final (Manager.destroy "123" manager_1) in
  Manager.get "123" m' = None
  ∧ ∃ m'', Manager.create options_123 m'
           = (Ok (constructed options_123 "A" 100), m'', construction_trace "123" "A" 100)
           ∧ Manager.get "123" m'' = Some (constructed options_123 "A" 100).
Proof.
  intros m'.
  destruct (destroy_then_get "123" manager_1) as (_ & Hget & _ & _ & Hcreate).
  - repeat constructor. intros H. by apply elem_of_nil in H.
  - split; [exact Hget|].
    apply (Hcreate options_123 "A" node_A 100); try reflexivity.
    apply check_valid. reflexivity.
Defined.

(** ** Voice updates: what a state fragment does *)

Lemma has_required_keys_spec vs :
  Manager.has_required_keys vs = true
  ↔ is_Some (VoiceState.op vs) ∧ is_Some (VoiceState.guildId vs)
    ∧ is_Some (VoiceState.event vs) ∧ is_Some (VoiceState.sessionId vs).
Proof.
  unfold Manager.has_required_keys, Manager.REQUIRED_KEYS, forallb, Manager.key_in.
  simpl. rewrite !andb_true_iff, !bool_decide_eq_true. tauto.
Qed.

(** The record once a state fragment's session id is stored. *)
Lemma updateVoiceState_join m d s player :
  let g := VoiceStateUpdate.guild_id s in
  Manager.update_of d = Some (UState s) →
  Manager.get g m = Some player →
  Manager.clientId (Manager.options m) = Some (VoiceStateUpdate.user_id s) →
  truthy (VoiceStateUpdate.channel_id s) = true →
  Manager.updateVoiceState d m
  = (Ok tt,
     Manager.set_players
       (Collection.set g
          (Player.set_voiceChannel (VoiceStateUpdate.channel_id s)
             (Player.set_voiceState
                {| VoiceState.op := VoiceState.op (Player.voiceState player);
                   VoiceState.guildId := VoiceState.guildId (Player.voiceState player);
                   VoiceState.event := VoiceState.event (Player.voiceState player);
                   VoiceState.sessionId := Some (VoiceStateUpdate.session_id s) |}
                player))
          (Manager.players m)) m,
     (if bool_decide (Player.voiceChannel player = VoiceStateUpdate.channel_id s)
      then []
      else [Emit (playerMove g (Player.voiceChannel player)
                    (default "" (VoiceStateUpdate.channel_id s)))])
     ++ (if Manager.has_required_keys
              {| VoiceState.op := VoiceState.op (Player.voiceState player);
                 VoiceState.guildId := VoiceState.guildId (Player.voiceState player);
                 VoiceState.event := VoiceState.event (Player.voiceState player);
                 VoiceState.sessionId := Some (VoiceStateUpdate.session_id s) |}
         then [NodeSend (Player.node player) g
                 (OpVoiceUpdate
                    {| VoiceState.op := VoiceState.op (Player.voiceState player);
                       VoiceState.guildId := VoiceState.guildId (Player.voiceState player);
                       VoiceState.event := VoiceState.event (Player.voiceState player);
                       VoiceState.sessionId := Some (VoiceStateUpdate.session_id s) |})]
         else [])).
Proof.
  intros g Hd Hget Hclient Hchan.
  unfold Manager.updateVoiceState, Manager.get in *. rewrite Hd. run_monad.
  fold g. rewrite Hget, Hclient. rewrite bool_decide_eq_true_2 by done. simpl.
  unfold Manager.on_player, Manager.apply_voice_state. rewrite Hchan. run_monad.
  case_bool_decide; simpl; destruct (Manager.has_required_keys _); done.
Qed.

(** X15.  A state fragment of the bot's own user that names a channel
    records the session id and the channel on the Session, emits
    [playerMove] exactly when the channel differs from the Session's,
    and dispatches one voice update, carrying the new session id, to the
    Session's Node exactly when the record already has [op], [guildId]
    and the server fragment; nothing else of the Session changes. *)
Theorem state_fragment_joins m d s player :
  let g := VoiceStateUpdate.guild_id s in
  let vs := Player.voiceState player in
  let vs' :=
    {| VoiceState.op := VoiceState.op vs;
       VoiceState.guildId := VoiceState.guildId vs;
       VoiceState.event := VoiceState.event vs;
       VoiceState.sessionId := Some (VoiceStateUpdate.session_id s) |} in
  let p' :=
    Player.set_voiceChannel (VoiceStateUpdate.channel_id s)
      (Player.set_voiceState vs' player) in
  Manager.update_of d = Some (UState s) →
  Manager.get g m = Some player →
  Manager.clientId (Manager.options m) = Some (VoiceStateUpdate.user_id s) →
  truthy (VoiceStateUpdate.channel_id s) = true →
  ∃ moved sent,
    Manager.updateVoiceState d m
    = (Ok tt, Manager.set_players (Collection.set g p' (Manager.players m)) m,
       moved ++ sent)
    ∧ (Player.voiceChannel player = VoiceStateUpdate.channel_id s ∧ moved = []
       ∨ Player.voiceChannel player ≠ VoiceStateUpdate.channel_id s
         ∧ moved = [Emit (playerMove g (Player.voiceChannel player)
                            (default "" (VoiceStateUpdate.channel_id s)))])
    ∧ ((is_Some (VoiceState.op vs) ∧ is_Some (VoiceState.guildId vs)
        ∧ is_Some (VoiceState.event vs))
       ∧ sent = [NodeSend (Player.node player) g (OpVoiceUpdate vs')]
       ∨ ¬ (is_Some (VoiceState.op vs) ∧ is_Some (VoiceState.guildId vs)
            ∧ is_Some (VoiceState.event vs))
         ∧ sent = []).
Proof.
  intros g vs vs' p' Hd Hget Hclient Hchan.
  rewrite (updateVoiceState_join m d s player Hd Hget Hclient Hchan).
  fold g vs vs' p'.
  assert (Manager.has_required_keys vs' = true
          ↔ is_Some (VoiceState.op vs) ∧ is_Some (VoiceState.guildId vs)
            ∧ is_Some (VoiceState.event vs)) as Hkeys.
  { rewrite has_required_keys_spec. subst vs'. simpl. split; [tauto|].
    intros (? & ? & ?). repeat split; done. }
  eexists _, _. split; [reflexivity|]. split.
  - case_bool_decide; [by left | by right].
  - destruct (Manager.has_required_keys vs') eqn:Hk.
    + left. split; [by apply Hkeys|done].
    + right. split; [|done]. intros H. apply Hkeys in H. congruence.
Qed.

Lemma state_fragment_joins_witness :
  ∃ moved sent,
    Manager.updateVoiceState state_fragment manager_1
    = (Ok tt,
       Manager.set_players
         (Collection.set "123"
            (Player.set_voiceChannel (Some "7")
               (Player.set_voiceState
                  {| VoiceState.op := Some "voiceUpdate";
                     VoiceState.guildId := Some "123";
                     VoiceState.event := None;
                     VoiceState.sessionId := Some "sess" |} player_123))
            (Manager.players manager_1)) manager_1,
       moved ++ sent)
    ∧ moved = [] ∧ sent = [].
Proof.
  destruct (state_fragment_joins manager_1 state_fragment
              (VoiceStateUpdate.mk "123" "999" "sess" (Some "7")) player_123)
    as (moved & sent & Hrun & Hmoved & Hsent); try reflexivity.
  exists moved, sent. split; [exact Hrun|]. split.
  - destruct Hmoved as [[_ ->] | [H _]]; [reflexivity|]. by destruct H.
  - destruct Hsent as [[(_ & _ & [? H]) _] | [_ ->]]; [discriminate H | reflexivity].
Defined.

Lemma updateVoiceState_server m d s player :
  Manager.update_of d = Some (UServer s) →
  Manager.get (VoiceServer.guild_id s) m = Some player →
  Manager.updateVoiceState d m
  = (Ok tt,
     Manager.set_players
       (Collection.set (VoiceServer.guild_id s)
          (Player.set_voiceState
             {| VoiceState.op := VoiceState.op (Player.voiceState player);
                VoiceState.guildId := VoiceState.guildId (Player.voiceState player);
                VoiceState.event := Some s;
                VoiceState.sessionId := VoiceState.sessionId (Player.voiceState player) |}
             player)
          (Manager.players m)) m,
     []).
Proof.
  intros Hd Hget. unfold Manager.updateVoiceState, Manager.get in *.
  rewrite Hd. run_monad. by rewrite Hget.
Qed.

(** X16.  For a Session whose record still has [op] and [guildId]: when
    the server fragment is delivered first and the state fragment of the
    bot's own user, naming a channel, second, exactly one operation
    reaches a Node: the merged voice update, sent to the Session's Node
    and carrying the server fragment and the session id. *)
Theorem server_then_state_dispatches_once m d1 d2 s u player :
  let g := VoiceStateUpdate.guild_id u in
  let vs := Player.voiceState player in
  Manager.update_of d1 = Some (UServer s) →
  Manager.update_of d2 = Some (UState u) →
  VoiceServer.guild_id s = g →
  Manager.get g m = Some player →
  Manager.clientId (Manager.options m) = Some (VoiceStateUpdate.user_id u) →
  truthy (VoiceStateUpdate.channel_id u) = true →
  is_Some (VoiceState.op vs) → is_Some (VoiceState.guildId vs) →
  result (Manager.updateVoiceStates [d1; d2] m) = Ok tt
  ∧ node_sends (trace (Manager.updateVoiceStates [d1; d2] m))
    = [NodeSend (Player.node player) g
         (OpVoiceUpdate
            {| VoiceState.op := VoiceState.op vs;
               VoiceState.guildId := VoiceState.guildId vs;
               VoiceState.event := Some s;
               VoiceState.sessionId := Some (VoiceStateUpdate.session_id u) |})]
  ∧ voice_dispatches g (trace (Manager.updateVoiceStates [d1; d2] m)) = 1%nat.
Proof.
  intros g vs Hd1 Hd2 Hg Hget Hclient Hchan Hop Hgid.
  assert (∃ m2 moved,
            Manager.updateVoiceStates [d1; d2] m
            = (Ok tt, m2,
               moved ++
               [NodeSend (Player.node player) g
                  (OpVoiceUpdate
                     {| VoiceState.op := VoiceState.op vs;
                        VoiceState.guildId := VoiceState.guildId vs;
                        VoiceState.event := Some s;
                        VoiceState.sessionId := Some (VoiceStateUpdate.session_id u) |})])
            ∧ node_sends moved = []) as (m2 & moved & -> & Hmoved).
  { unfold Manager.updateVoiceStates. simpl. unfold mbind, M_bind, bind.
    rewrite <- Hg in Hget. rewrite (updateVoiceState_server m d1 s player Hd1 Hget).
    rewrite Hg.
    erewrite (updateVoiceState_join _ d2 u _ Hd2);
      [|unfold Manager.get; simpl; apply get_set_eq|done|done].
    simpl. fold g vs.
    assert (Manager.has_required_keys
              {| VoiceState.op := VoiceState.op vs;
                 VoiceState.guildId := VoiceState.guildId vs;
                 VoiceState.event := Some s;
                 VoiceState.sessionId := Some (VoiceStateUpdate.session_id u) |}
            = true) as ->.
    { apply has_required_keys_spec. simpl. repeat split; done. }
    rewrite app_nil_r. eexists _, _. split; [reflexivity|].
    by case_bool_decide. }
  unfold result, trace. simpl. split; [done|].
  unfold voice_dispatches. rewrite node_sends_app, Hmoved. split; [done|].
  rewrite List.filter_app. simpl. rewrite String.eqb_refl. simpl.
  assert (List.filter (is_voice_dispatch g) moved = []) as ->; [|done].
  clear -Hmoved. induction moved as [|e moved IH]; [done|].
  unfold node_sends in *. simpl in *.
  destruct e; simpl in *; try done; by apply IH.
Qed.

Lemma server_then_state_dispatches_once_witness :
  node_sends (trace (Manager.updateVoiceStates [server_fragment; state_fragment] manager_1))
  = [NodeSend "A" "123"
       (OpVoiceUpdate
          {| VoiceState.op := Some "voiceUpdate";
             VoiceState.guildId := Some "123";
             VoiceState.event := Some (VoiceServer.mk "tok" "123" "eu.example");
             VoiceState.sessionId := Some "sess" |})]
  ∧ voice_dispatches "123"
      (trace (Manager.updateVoiceStates [server_fragment; state_fragment] manager_1))
    = 1%nat.
Proof.
  apply (server_then_state_dispatches_once manager_1 server_fragment state_fragment
           (VoiceServer.mk "tok" "123" "eu.example")
           (VoiceStateUpdate.mk "123" "999" "sess" (Some "7")) player_123);
    try reflexivity; by eexists.
Defined.

(** ** Leaving and joining a voice channel *)

Lemma pause_noop b p :
  Player.paused p = b ∨ Queue.totalSize (Player.queue p) = 0%nat →
  Player.pause b p = (Ok tt, p, []).
Proof.
  intros H. unfold Player.pause. run_monad.
  destruct H as [-> | ->]; [|by rewrite orb_true_r]. by rewrite eqb_reflx.
Qed.

Lemma pause_acts b p :
  Player.paused p ≠ b → Queue.totalSize (Player.queue p) ≠ 0%nat →
  Player.pause b p
  = (Ok tt, Player.set_playing_paused (negb b) b p,
     [NodeSend (Player.node p) (Player.guild p) (OpPause (Player.guild p) b)]).
Proof.
  intros Hp Hq. unfold Player.pause. run_monad.
  destruct (Nat.eqb_spec (Queue.totalSize (Player.queue p)) 0); [done|].
  destruct (Bool.eqb_spec (Player.paused p) b); done.
Qed.

(** What [pause(true)] leaves and sends, in one statement. *)
Lemma pause_true_cases p :
  ∃ p' ops,
    Player.pause true p = (Ok tt, p', ops)
    ∧ (p' = p ∧ ops = []
       ∨ p' = Player.set_playing_paused false true p
         ∧ ops = [NodeSend (Player.node p) (Player.guild p)
                    (OpPause (Player.guild p) true)])
    ∧ (Queue.totalSize (Player.queue p) ≠ 0%nat → Player.paused p' = true).
Proof.
  destruct (decide (Player.paused p = true)) as [Hp|Hp].
  { exists p, []. rewrite pause_noop by (by left). split; [done|]. split; [by left|done]. }
  destruct (decide (Queue.totalSize (Player.queue p) = 0%nat)) as [Hq|Hq].
  { exists p, []. rewrite pause_noop by (by right). split; [done|]. split; [by left|done]. }
  eexists _, _. rewrite pause_acts by done. split; [done|]. split; [by right|done].
Qed.

(** X17.  A state fragment of the bot's own user without a channel (the
    bot was removed from its channel) emits [playerDisconnect] with the
    channel the Session was in, clears the Session's voice channel and
    credential record, and pauses it: a [pause] operation is sent exactly
    when the Session was not paused and had a current or upcoming track.
    No voice update is sent, and queue, volume and bands are untouched. *)
Theorem external_disconnect m d s player :
  let g := VoiceStateUpdate.guild_id s in
  Manager.update_of d = Some (UState s) →
  Manager.get g m = Some player →
  Manager.clientId (Manager.options m) = Some (VoiceStateUpdate.user_id s) →
  truthy (VoiceStateUpdate.channel_id s) = false →
  ∃ p' ops,
    Manager.updateVoiceState d m
    = (Ok tt, Manager.set_players (Collection.set g p' (Manager.players m)) m,
       Emit (playerDisconnect g (Player.voiceChannel player)) :: ops)
    ∧ Player.voiceChannel p' = None
    ∧ Player.voiceState p' = VoiceState.empty
    ∧ Player.queue p' = Player.queue player
    ∧ Player.volume p' = Player.volume player
    ∧ Player.bands p' = Player.bands player
    ∧ (Player.paused player = false
       ∧ Queue.totalSize (Player.queue player) ≠ 0%nat
       ∧ ops = [NodeSend (Player.node player) (Player.guild player)
                  (OpPause (Player.guild player) true)]
       ∧ Player.paused p' = true ∧ Player.playing p' = false
       ∨ (Player.paused player = true
          ∨ Queue.totalSize (Player.queue player) = 0%nat)
         ∧ ops = []
         ∧ Player.paused p' = Player.paused player
         ∧ Player.playing p' = Player.playing player).
Proof.
  intros g Hd Hget Hclient Hchan.
  unfold Manager.updateVoiceState, Manager.get in *. rewrite Hd. run_monad.
  fold g. rewrite Hget, Hclient. rewrite bool_decide_eq_true_2 by done. simpl.
  unfold Manager.on_player, Manager.apply_voice_state. rewrite Hchan.
  unfold mbind, M_bind, bind, get_state, tell, modify. simpl.
  set (cleared := Player.set_voiceState VoiceState.empty
                    (Player.set_voiceChannel None player)).
  destruct (decide (Player.paused player = true)) as [Hp|Hp].
  { rewrite (pause_noop true cleared) by (by left). simpl.
    eexists _, _. split; [reflexivity|]. repeat (split; [done|]). right. auto. }
  destruct (decide (Queue.totalSize (Player.queue player) = 0%nat)) as [Hq|Hq].
  { rewrite (pause_noop true cleared) by (by right). simpl.
    eexists _, _. split; [reflexivity|]. repeat (split; [done|]). right. auto. }
  rewrite (pause_acts true cleared) by done. simpl.
  eexists _, _. split; [reflexivity|]. repeat (split; [done|]). left.
  split; [by destruct (Player.paused player)|]. done.
Qed.

Lemma external_disconnect_witness :
  ∃ p' ops,
    Manager.updateVoiceState (Bare (UState kicked_fragment)) manager_1
    = (Ok tt,
       Manager.set_players (Collection.set "123" p' (Manager.players manager_1)) manager_1,
       Emit (playerDisconnect "123" (Some "7")) :: ops)
    ∧ Player.voiceChannel p' = None
    ∧ Player.voiceState p' = VoiceState.empty.
Proof.
  destruct (external_disconnect manager_1 (Bare (UState kicked_fragment))
              kicked_fragment player_123)
    as (p' & ops & Hrun & Hvc & Hvs & _); try reflexivity.
  exists p', ops. split; [exact Hrun|]. split; [exact Hvc | exact Hvs].
Defined.

(** The gateway payload that leaves the voice channel. *)
Lemma disconnect_cases p :
  (Player.voiceChannel p = None → Player.disconnect p = (Ok tt, p, []))
  ∧ (∀ c, Player.voiceChannel p = Some c →
     ∃ p1 ops,
       Player.pause true (Player.set_state DISCONNECTING p) = (Ok tt, p1, ops)
       ∧ Player.disconnect p
         = (Ok tt, Player.set_state DISCONNECTED (Player.set_voiceChannel None p1),
            ops ++ [GatewaySend (Player.guild p)
                      {| d_guild_id := Player.guild p; d_channel_id := None;
                         d_self_mute := false; d_self_deaf := false |}])).
Proof.
  split.
  - intros H. unfold Player.disconnect. run_monad. by rewrite H.
  - intros c H.
    destruct (pause_true_cases (Player.set_state DISCONNECTING p))
      as (p1 & ops & Hpause & _).
    exists p1, ops. split; [done|].
    unfold Player.disconnect, mbind, M_bind, bind, get_state, modify, tell. simpl.
    rewrite H, Hpause. done.
Qed.

(** X18.  [disconnect()] does nothing when the Session has no voice
    channel.  Otherwise it pauses the Session (sending [pause] only if it
    was not paused and has a track), sends the gateway the leave intent
    for the guild, and leaves the Session without voice channel in state
    DISCONNECTED; the credential record, queue, volume and bands stay.
    After it, a second [disconnect()] does nothing and [connect()]
    throws. *)
Theorem disconnect_leaves p :
  (Player.voiceChannel p = None → Player.disconnect p = (Ok tt, p, []))
  ∧ (is_Some (Player.voiceChannel p) →
     ∃ p' ops,
       Player.disconnect p
       = (Ok tt, p',
          ops ++ [GatewaySend (Player.guild p)
                    {| d_guild_id := Player.guild p; d_channel_id := None;
                       d_self_mute := false; d_self_deaf := false |}])
       ∧ (ops = []
          ∨ ops = [NodeSend (Player.node p) (Player.guild p)
                     (OpPause (Player.guild p) true)])
       ∧ Player.voiceChannel p' = None
       ∧ Player.state p' = DISCONNECTED
       ∧ (Queue.totalSize (Player.queue p) ≠ 0%nat → Player.paused p' = true)
       ∧ Player.voiceState p' = Player.voiceState p
       ∧ Player.queue p' = Player.queue p
       ∧ Player.volume p' = Player.volume p
       ∧ Player.bands p' = Player.bands p)
  ∧ (Player.disconnect;; Player.disconnect) p = Player.disconnect p
  ∧ result ((Player.disconnect;; Player.connect) p)
    = Throw (RangeError "Voice channel ID not set.")
  ∧ final ((Player.disconnect;; Player.connect) p) = final (Player.disconnect p).
Proof.
  destruct (disconnect_cases p) as [Hnone Hsome].
  assert (Player.voiceChannel (final (Player.disconnect p)) = None
          ∧ result (Player.disconnect p) = Ok tt) as [Hafter Hok].
  { destruct (Player.voiceChannel p) as [c|] eqn:Hvc.
    - destruct (Hsome c eq_refl) as (p1 & ops & _ & ->). done.
    - by rewrite (Hnone eq_refl). }
  split; [done|]. split.
  { intros [c Hc]. destruct (Hsome c Hc) as (p1 & ops & Hpause & ->).
    destruct (pause_true_cases (Player.set_state DISCONNECTING p))
      as (p1' & ops' & Hpause' & Hcases & Hpaused).
    rewrite Hpause in Hpause'. injection Hpause' as <- <-.
    eexists _, _. split; [reflexivity|].
    destruct Hcases as [[-> ->] | [-> ->]]; simpl.
    - split; [by left|]. repeat (split; [done|]). done.
    - split; [by right|]. repeat (split; [done|]). done. }
  unfold mbind, M_bind, bind, result, final in *.
  destruct (Player.disconnect p) as [[r p'] tr]. simpl in *. subst r.
  destruct (disconnect_cases p') as [Hnone' _]. rewrite (Hnone' Hafter).
  split; [by rewrite app_nil_r|].
  unfold Player.connect. run_monad. by rewrite Hafter.
Qed.

Lemma disconnect_leaves_witness :
  ∃ p' ops,
    Player.disconnect player_playing
    = (Ok tt, p',
       ops ++ [GatewaySend "123"
                 {| d_guild_id := "123"; d_channel_id := None;
                    d_self_mute := false; d_self_deaf := false |}])
    ∧ (ops = [] ∨ ops = [NodeSend "A" "123" (OpPause "123" true)])
    ∧ Player.voiceChannel p' = None
    ∧ Player.state p' = DISCONNECTED.
Proof.
  destruct (proj1 (proj2 (disconnect_leaves player_playing)))
    as (p' & ops & Hrun & Hops & Hvc & Hst & _).
  - by eexists.
  - exists p', ops. split; [exact Hrun|]. split; [exact Hops|]. split; done.
Defined.

(** X19.  [setVoiceChannel(c)] with a non-empty [c] stores the channel,
    sends the gateway the join intent for it (with the self-mute and
    self-deafen options, false when not given) and leaves the state
    CONNECTED, whatever the state was and without checking [c] for
    digits.  With the empty string it throws, but the empty channel is
    stored all the same and the state is as before; [connect()] alone
    throws in the same way whenever the Session has no non-empty
    channel, changing nothing. *)
Theorem setVoiceChannel_connects p c :
  (c ≠ "" →
   Player.setVoiceChannel c p
   = (Ok tt, Player.set_state CONNECTED (Player.set_voiceChannel (Some c) p),
      [GatewaySend (Player.guild p)
         {| d_guild_id := Player.guild p;
            d_channel_id := Some c;
            d_self_mute := default false (PlayerOptions.selfMute (Player.options p));
            d_self_deaf := default false (PlayerOptions.selfDeafen (Player.options p)) |}]))
  ∧ Player.setVoiceChannel "" p
    = (Throw (RangeError "Voice channel ID not set."),
       Player.set_voiceChannel (Some "") p, [])
  ∧ (truthy (Player.voiceChannel p) = false →
     Player.connect p = (Throw (RangeError "Voice channel ID not set."), p, [])).
Proof.
  split; [|split].
  - intros Hc. unfold Player.setVoiceChannel, Player.connect. run_monad.
    destruct (String.eqb_spec c ""); done.
  - done.
  - intros H. unfold Player.connect. run_monad. by rewrite H.
Qed.

Lemma setVoiceChannel_connects_witness :
  Player.setVoiceChannel "42" player_123
  = (Ok tt, Player.set_state CONNECTED (Player.set_voiceChannel (Some "42") player_123),
     [GatewaySend "123"
        {| d_guild_id := "123"; d_channel_id := Some "42";
           d_self_mute := false; d_self_deaf := false |}]).
Proof. apply (setVoiceChannel_connects player_123 "42"). discriminate. Defined.

(** ** Destroying a Session *)

Lemma disconnect_keeps_identity p :
  ∃ p' tr,
    Player.disconnect p = (Ok tt, p', tr)
    ∧ Player.guild p' = Player.guild p ∧ Player.node p' = Player.node p
    ∧ (Player.voiceChannel p = None → p' = p ∧ tr = [])
    ∧ (is_Some (Player.voiceChannel p) →
       Player.state p' = DISCONNECTED ∧ Player.voiceChannel p' = None
       ∧ ∃ ops, tr = ops ++ [GatewaySend (Player.guild p)
                               {| d_guild_id := Player.guild p; d_channel_id := None;
                                  d_self_mute := false; d_self_deaf := false |}]).
Proof.
  destruct (disconnect_cases p) as [Hnone Hsome].
  destruct (Player.voiceChannel p) as [c|] eqn:Hvc.
  - destruct (Hsome c eq_refl) as (p1 & ops & Hpause & ->).
    destruct (pause_true_cases (Player.set_state DISCONNECTING p))
      as (p1' & ops' & Hpause' & Hcases & _).
    rewrite Hpause in Hpause'. injection Hpause' as <- <-.
    eexists _, _. split; [reflexivity|].
    destruct Hcases as [[-> ->] | [-> ->]]; simpl.
    all: (split; [done|]); (split; [done|]); (split; [by intros [=]|]);
      intros _; (split; [done|]); (split; [done|]);
      first [by exists [] | by eexists [_]].
  - rewrite (Hnone eq_refl). eexists _, _. split; [reflexivity|].
    split; [done|]. split; [done|]. split; [done|]. by intros [? ?].
Qed.

(** X20.  [destroy(disconnect)] always ends by sending the [destroy]
    operation for the guild to the Session's Node, emitting
    [playerDestroy] and removing the guild from the registry (with one
    entry per guild, the guild is then unregistered and the other
    Sessions are as before).  If asked to disconnect a Session that has a
    voice channel, it first leaves the channel through the gateway, and
    the Session ends in state DISCONNECTED, not DESTROYING; in the other
    cases nothing precedes the [destroy] operation and the state is
    DESTROYING. *)
Theorem Player_destroy_unregisters dc this m :
  let g := Player.guild this in
  ∃ this' before,
    Player_destroy dc this m
    = (Ok tt, this',
       Manager.set_players (Collection.delete g (Manager.players m)) m,
       (Earlier <$> before)
       ++ [NodeSendDestroy (Player.node this) g g; EmitPlayerDestroy g])
    ∧ (dc = true → is_Some (Player.voiceChannel this) →
       Player.state this' = DISCONNECTED ∧ Player.voiceChannel this' = None
       ∧ ∃ ops, before = ops ++ [GatewaySend g
                                   {| d_guild_id := g; d_channel_id := None;
                                      d_self_mute := false; d_self_deaf := false |}])
    ∧ (dc = false ∨ Player.voiceChannel this = None →
       this' = Player.set_state DESTROYING this ∧ before = [])
    ∧ (NoDup (keys (Manager.players m)) →
       Collection.get g (Collection.delete g (Manager.players m)) = None
       ∧ ∀ g', g' ≠ g →
           Collection.get g' (Collection.delete g (Manager.players m))
           = Manager.get g' m).
Proof.
  intros g. unfold Player_destroy.
  assert (NoDup (keys (Manager.players m)) →
       Collection.get g (Collection.delete g (Manager.players m)) = None
       ∧ ∀ g', g' ≠ g →
           Collection.get g' (Collection.delete g (Manager.players m))
           = Manager.get g' m) as Hreg.
  { intros Hnd. split; [by apply get_delete_eq|].
    intros g' Hne. apply get_delete_ne. congruence. }
  destruct dc.
  - destruct (disconnect_keeps_identity (Player.set_state DESTROYING this))
      as (p' & tr & -> & Hg & Hn & Hnone & Hsome).
    simpl in Hg, Hn. rewrite Hg, Hn. fold g.
    exists p', tr. split; [done|]. split.
    + intros _ Hvc. apply Hsome. done.
    + split; [|exact Hreg]. intros [?|Hvc]; [done|]. by apply Hnone.
  - eexists _, []. split; [reflexivity|]. split; [done|]. split; [done|]. exact Hreg.
Qed.

Lemma Player_destroy_unregisters_witness :
  ∃ this' before,
    Player_destroy true player_123 manager_1
    = (Ok tt, this', Manager.set_players [] manager_1,
       (Earlier <$> before)
       ++ [NodeSendDestroy "A" "123" "123"; EmitPlayerDestroy "123"])
    ∧ Player.state this' = DISCONNECTED.
Proof.
  destruct (Player_destroy_unregisters true player_123 manager_1)
    as (this' & before & Hrun & Hdisc & _).
  exists this', before. split; [exact Hrun|].
  apply Hdisc; [reflexivity | by eexists].
Defined.

Lemma search_node_available_witness :
  Manager.search_node manager_offline = Throw (Error "No available nodes").
Proof.
  apply (proj1 (search_node_available manager_offline)).
  intros k n H. apply list_elem_of_In in H. simpl in H.
  destruct H as [[= <- <-] | [[= <- <-] | []]]; reflexivity.
Defined.

(** ** The gain array only grows *)

Lemma array_set_grows (a : JsArray) (k v : Q) :
  (length a ≤ length (array_set a k v))%nat
  ∧ ∀ i g, a !! i = Some (Some g) → ∃ g', array_set a k v !! i = Some (Some g').
Proof.
  unfold array_set. destruct (as_index k) as [j|]; [|by eauto].
  destruct (Nat.ltb_spec j (length a)).
  - split.
    { assert (length (<[j:=Some v]> a) = length a) as -> by apply length_insert.
      done. }
    intros i g Hi. destruct (decide (j = i)) as [->|Hne].
    + exists v. by apply list_lookup_insert_eq.
    + exists g. etrans; [by apply list_lookup_insert_ne|done].
  - split; [rewrite length_app; lia|].
    intros i g Hi. exists g. by apply lookup_app_l_Some.
Qed.

Lemma foldl_assign_band_grows bs : ∀ a : JsArray,
  (length a ≤ length (foldl Player.assign_band a bs))%nat
  ∧ ∀ i g, a !! i = Some (Some g) →
           ∃ g', foldl Player.assign_band a bs !! i = Some (Some g').
Proof.
  induction bs as [|b bs IH]; intros a; simpl; [by eauto|].
  assert ((length a ≤ length (Player.assign_band a b))%nat
          ∧ ∀ i g, a !! i = Some (Some g) →
                   ∃ g', Player.assign_band a b !! i = Some (Some g')) as [Hl Hk].
  { unfold Player.assign_band.
    destruct (prop "band" b); [|by eauto]. destruct (prop "gain" b); [|by eauto].
    apply array_set_grows. }
  destruct (IH (Player.assign_band a b)) as [Hl' Hk'].
  split; [lia|]. intros i g Hi. destruct (Hk i g Hi) as [g' Hg']. by eapply Hk'.
Qed.

(** X21.  [setEQ] never shortens the gain array and never empties a
    slot: whatever the band list, the array afterwards is at least as
    long as before and every slot that held a gain still holds one.  When
    the call succeeds, the one operation it sends is an [equalizer]
    operation listing the whole array, entry [i] as band [i]. *)
Theorem setEQ_never_shrinks p bs :
  let '(r, p', tr) := Player.setEQ bs p in
  (length (Player.bands p) ≤ length (Player.bands p'))%nat
  ∧ (∀ i g, Player.bands p !! i = Some (Some g) →
            ∃ g', Player.bands p' !! i = Some (Some g'))
  ∧ (r = Ok tt →
     ∃ sent,
       tr = [NodeSend (Player.node p) (Player.guild p) (OpEqualizer (Player.guild p) sent)]
       ∧ length sent = length (Player.bands p')
       ∧ ∀ i, sent !! i = (λ g, mkBand i <$> g) <$> (Player.bands p' !! i)).
Proof.
  unfold Player.setEQ.
  destruct ((length bs =? 0)%nat || negb (forallb Player.has_band_and_gain bs)).
  { simpl. split; [done|]. split; [by eauto|]. done. }
  run_monad.
  destruct (foldl_assign_band_grows bs (Player.bands p)) as [Hl Hk].
  split; [done|]. split; [done|]. intros _.
  eexists. split; [reflexivity|]. unfold Player.equalizer_bands.
  split; [by rewrite length_imap|]. intros i. by rewrite list_lookup_imap.
Qed.

Lemma setEQ_never_shrinks_witness :
  let '(r, p', tr) := Player.setEQ [[("band", 16); ("gain", 1 # 2)]] player_123 in
  (length (Player.bands player_123) ≤ length (Player.bands p'))%nat
  ∧ (∀ i g, Player.bands player_123 !! i = Some (Some g) →
            ∃ g', Player.bands p' !! i = Some (Some g'))
  ∧ (r = Ok tt →
     ∃ sent,
       tr = [NodeSend "A" "123" (OpEqualizer "123" sent)]
       ∧ length sent = length (Player.bands p')
       ∧ ∀ i, sent !! i = (λ g, mkBand i <$> g) <$> (Player.bands p' !! i)).
Proof. apply (setEQ_never_shrinks player_123 [[("band", 16); ("gain", 1 # 2)]]). Defined.

Lemma play_sends_at_most_once_witness :
  let '(r, p', tr) :=
    Player.play resolve_sample 3 (Some (ArgTrack (Unresolved unresolved_1))) None
      player_queued in
  p' = Player.set_queue (Player.queue p') player_queued
  ∧ Queue.items (Player.queue p') = Queue.items (Player.queue player_queued)
  ∧ (node_sends tr = []
     ∨ ∃ t o,
         node_sends tr = [NodeSend "A" "123" (OpPlay "123" (Track.track t) o)]
         ∧ r = Ok (Some tt)
         ∧ Queue.current (Player.queue p') = Some (Resolved t)).
Proof.
  apply (play_sends_at_most_once resolve_sample 3
           (Some (ArgTrack (Unresolved unresolved_1))) None player_queued).
Defined.

Lemma updateVoiceState_frame_witness :
  let m' := final (Manager.updateVoiceState state_fragment manager_1) in
  result (Manager.updateVoiceState state_fragment manager_1) = Ok tt
  ∧ keys (Manager.players m') = ["123"]
  ∧ Manager.nodes m' = Manager.nodes manager_1.
Proof.
  intros m'.
  destruct (updateVoiceState_frame state_fragment manager_1) as (Hr & Hk & Hn & _).
  split; [exact Hr|]. split; [exact Hk | exact Hn].
Defined.
